(** * Parsed-section resolution of Checkmk's agent based data provider

    A shallow embedding of [cmk/base/agent_based/data_provider.py]:
    the memoizing [SectionsParser], the [ParsedSectionsResolver] with its
    supersedes handling, the [ParsedSectionsBroker] and the two module
    level helpers [store_piggybacked_sections] and [make_providers].

    Python objects with mutable attributes are records that are passed
    through every operation; an operation that may raise returns an
    [Outcome].  Dictionaries that are only looked up are [gmap]s,
    dictionaries that the code iterates are association lists in
    insertion order. *)

From stdpp Require Import gmap strings list fin_maps.
From Stdlib Require Import ZArith.

Set Default Proof Using "Type".
Local Open Scope Z_scope.

(** ** Names and raw data *)

Abbreviation HostName := string.
Abbreviation SectionName := string.
Abbreviation ParsedSectionName := string.

(** A raw section is a sequence of rows, each row a sequence of fields. *)
Abbreviation RawData := (list (list string)).

(** [_CacheInfo = tuple[int, int]]: collection timestamp and interval. *)
Abbreviation _CacheInfo := (Z * Z)%type.

(** Python exceptions: the [KeyError] of a failed dictionary lookup, and
    whatever else a parse function raises; this module never inspects it. *)
Inductive Exn :=
  | KeyError (key : string)
  | Exception (msg : string).

(** Modelled from the spec: the enumeration [SourceType] of [cmk.checkers],
    which is not among the sources; the data model lists the source kinds
    regular host, management board and piggyback. *)
Inductive SourceType := HOST | MANAGEMENT | PIGGYBACK.

#[global] Instance SourceType_eq_dec : EqDecision SourceType.
Proof. solve_decision. Defined.

Record HostKey := mkHostKey {
  hostname : HostName;
  source_type : SourceType
}.

#[global] Instance HostKey_eq_dec : EqDecision HostKey.
Proof. solve_decision. Defined.

(** ** Insertion ordered dictionaries

    [d[k]] and [k in d] on a dictionary kept as an association list. *)

Fixpoint dict_get {V : Type} (k : string) (d : list (string * V)) : option V :=
  match d with
  | [] => None
  | (k', v) :: d' => if decide (k = k') then Some v else dict_get k d'
  end.

Definition dict_keys {V : Type} (d : list (string * V)) : list string := d.*1.

(** [HostSections] of [cmk.checkers.host_sections]: the raw sections in
    the order they were collected, the cache info per raw section and the
    piggybacked raw data per piggybacked host. *)
Record HostSections := mkHostSections {
  sections : list (SectionName * RawData);
  hs_cache_info : gmap SectionName _CacheInfo;
  piggybacked_raw_data : list (HostName * list string)
}.

(** A call [cmk.utils.piggyback.store_piggyback_raw_data(hostname, data)];
    the piggyback store is outside this module, its state here is the
    sequence of calls it has received. *)
Abbreviation StoreCall := (HostName * list (HostName * list string))%type.

(** ** Outcomes of operations that may raise *)

Inductive Outcome (S A : Type) :=
  | Returns (a : A) (s : S)
  | Raises (e : Exn) (s : S).
Arguments Returns {S A} a s.
Arguments Raises {S A} e s.

Definition Op (S A : Type) : Type := S → Outcome S A.

Definition ret {S A} (a : A) : Op S A := λ s, Returns a s.

Definition bind {S A B} (m : Op S A) (k : A → Op S B) : Op S B :=
  λ s, match m s with
       | Returns a s' => k a s'
       | Raises e s' => Raises e s'
       end.

Notation "'let*' x ':=' m 'in' k" := (bind m (λ x, k))
  (at level 10, x name, m at level 100, k at level 200, only parsing).

(** What a call of a plugin's parse function does: it returns an object,
    which may be [None], or it raises. *)
Inductive Called (A : Type) :=
  | Return (a : A)
  | Raise (e : Exn).
Arguments Return {A} a.
Arguments Raise {A} e.

Section data_provider.

(** [ParsedSectionContent = object]: the parse function may return
    anything.  [Content] stands for every object but [None]. *)
Context {Content : Type}.

(** [cmk.utils.debug.enabled()]. *)
Variable debug_enabled : bool.

(** [create_section_crash_dump(operation="parsing", section_name=...,
    section_content=..., host_name=..., rtc_package=None)] of
    [cmk.checkers.crash_reporting]; the text it returns is opaque here. *)
Variable create_section_crash_dump : SectionName → RawData → HostName → string.

Definition ParseFunction : Type := RawData → Called (option Content).

Record _ParsingResult := mk_ParsingResult {
  data : Content;
  cache_info : option _CacheInfo
}.

(** ** SectionsParser *)

(** The four attributes of the class, and [parse_calls], which is not an
    attribute: it records the raw section name of every invocation of a
    parse function, in order, the way a call counting stub would. *)
Record SectionsParser := mkSectionsParser {
  _host_sections : HostSections;
  _parsing_errors : list string;
  _memoized_results : gmap SectionName (option _ParsingResult);
  _host_name : HostName;
  parse_calls : list SectionName
}.

(** [SectionsParser(host_sections=..., host_name=...)] *)
Definition SectionsParser_init (host_sections : HostSections) (host_name : HostName)
  : SectionsParser :=
  {| _host_sections := host_sections;
     _parsing_errors := [];
     _memoized_results := ∅;
     _host_name := host_name;
     parse_calls := [] |}.

Definition parsing_errors (self : SectionsParser) : list string :=
  _parsing_errors self.

Definition set_memoized (self : SectionsParser)
    (m : gmap SectionName (option _ParsingResult)) : SectionsParser :=
  {| _host_sections := _host_sections self;
     _parsing_errors := _parsing_errors self;
     _memoized_results := m;
     _host_name := _host_name self;
     parse_calls := parse_calls self |}.

Definition append_parsing_error (self : SectionsParser) (msg : string) : SectionsParser :=
  {| _host_sections := _host_sections self;
     _parsing_errors := _parsing_errors self ++ [msg];
     _memoized_results := _memoized_results self;
     _host_name := _host_name self;
     parse_calls := parse_calls self |}.

Definition record_call (self : SectionsParser) (section_name : SectionName) : SectionsParser :=
  {| _host_sections := _host_sections self;
     _parsing_errors := _parsing_errors self;
     _memoized_results := _memoized_results self;
     _host_name := _host_name self;
     parse_calls := parse_calls self ++ [section_name] |}.

(** [SectionsParser._parse_raw_data] *)
Definition _parse_raw_data (section_name : SectionName) (parse_function : ParseFunction)
  : Op SectionsParser (option Content) :=
  λ self,
    match dict_get section_name (sections (_host_sections self)) with
    | None => Returns None self                           (* except KeyError *)
    | Some raw_data =>
        let self := record_call self section_name in
        match parse_function raw_data with
        | Return parsed => Returns parsed self
        | Raise e =>
            if debug_enabled then Raises e self
            else
              Returns None
                (append_parsing_error self
                   (create_section_crash_dump section_name raw_data (_host_name self)))
        end
    end.

(** [dict.setdefault(key, default)] on the memo of the parser. *)
Definition memo_setdefault (section_name : SectionName) (default : option _ParsingResult)
  : Op SectionsParser (option _ParsingResult) :=
  λ self,
    match _memoized_results self !! section_name with
    | Some r => Returns r self
    | None => Returns default (set_memoized self (<[section_name := default]> (_memoized_results self)))
    end.

(** [SectionsParser.parse] *)
Definition parse (section_name : SectionName) (parse_function : ParseFunction)
  : Op SectionsParser (option _ParsingResult) :=
  λ self,
    match _memoized_results self !! section_name with
    | Some r => Returns r self
    | None =>
        (let* parsed := _parse_raw_data section_name parse_function in
         λ self,
           memo_setdefault section_name
             match parsed with
             | None => None
             | Some d =>
                 Some {| data := d;
                         cache_info := hs_cache_info (_host_sections self) !! section_name |}
             end self) self
    end.

(** [SectionsParser.disable] *)
Fixpoint disable (raw_section_names : list SectionName) (self : SectionsParser)
  : SectionsParser :=
  match raw_section_names with
  | [] => self
  | section_name :: rest =>
      disable rest (set_memoized self (<[section_name := None]> (_memoized_results self)))
  end.

(** The value [parse] memoizes for what the parse function returned, and
    the parser with one more memoized entry. *)
Definition parsing_result (self : SectionsParser) (section_name : SectionName)
    (parsed : option Content) : option _ParsingResult :=
  match parsed with
  | None => None
  | Some d =>
      Some {| data := d; cache_info := hs_cache_info (_host_sections self) !! section_name |}
  end.

Definition memoize (self : SectionsParser) (section_name : SectionName)
    (r : option _ParsingResult) : SectionsParser :=
  set_memoized self (<[section_name := r]> (_memoized_results self)).

(** A use of one parser instance: any sequence of calls of its two
    methods.  [run_calls] performs them in order and collects what the
    [parse] calls return. *)
Inductive ParserCall :=
  | CallParse (section_name : SectionName) (parse_function : ParseFunction)
  | CallDisable (raw_section_names : list SectionName).

Fixpoint run_calls (calls : list ParserCall)
  : Op SectionsParser (list (option _ParsingResult)) :=
  match calls with
  | [] => ret []
  | CallParse section_name parse_function :: rest =>
      let* r := parse section_name parse_function in
      let* rs := run_calls rest in
      ret (r :: rs)
  | CallDisable raw_section_names :: rest =>
      let* _ := (λ self, Returns tt (disable raw_section_names self)) in
      run_calls rest
  end.

(** ** Section plugins

    Of [SectionPlugin] ([cmk.base.api.agent_based.type_defs]) the module
    reads the four attributes below; [supersedes] is a set of raw section
    names. *)
Record SectionPlugin := mkSectionPlugin {
  name : SectionName;
  parsed_section_name : ParsedSectionName;
  parse_function : ParseFunction;
  supersedes : gset SectionName
}.

Record ResolvedResult := mkResolvedResult {
  section : SectionPlugin;
  parsed_data : Content;
  rr_cache_info : option _CacheInfo
}.

(** ** ParsedSectionsResolver *)

Record ParsedSectionsResolver := mkParsedSectionsResolver {
  section_plugins : list SectionPlugin;
  _superseders : gmap SectionName (list SectionPlugin);
  _producers : gmap ParsedSectionName (list SectionPlugin);
  _memoized_resolved : gmap ParsedSectionName (option ResolvedResult)
}.

(** [d.setdefault(k, []).append(x)] *)
Definition setdefault_append {V : Type} (k : string) (x : V) (d : gmap string (list V))
  : gmap string (list V) :=
  match d !! k with
  | Some l => <[k := l ++ [x]]> d
  | None => <[k := [x]]> d
  end.

(** [ParsedSectionsResolver._init_superseders] *)
Definition _init_superseders (section_plugins : list SectionPlugin)
  : gmap SectionName (list SectionPlugin) :=
  foldl (λ superseders section,
           foldl (λ superseders superseded, setdefault_append superseded section superseders)
                 superseders (elements (supersedes section)))
        ∅ section_plugins.

(** [ParsedSectionsResolver._init_producers] *)
Definition _init_producers (section_plugins : list SectionPlugin)
  : gmap ParsedSectionName (list SectionPlugin) :=
  foldl (λ producers section,
           setdefault_append (parsed_section_name section) section producers)
        ∅ section_plugins.

(** [ParsedSectionsResolver(section_plugins=...)] *)
Definition ParsedSectionsResolver_init (section_plugins : list SectionPlugin)
  : ParsedSectionsResolver :=
  {| section_plugins := section_plugins;
     _superseders := _init_superseders section_plugins;
     _producers := _init_producers section_plugins;
     _memoized_resolved := ∅ |}.

Definition set_resolved (self : ParsedSectionsResolver)
    (m : gmap ParsedSectionName (option ResolvedResult)) : ParsedSectionsResolver :=
  {| section_plugins := section_plugins self;
     _superseders := _superseders self;
     _producers := _producers self;
     _memoized_resolved := m |}.

(** The inner loop of [resolve]:
    [for superseder in self._superseders.get(producer.name, ())]. *)
Fixpoint parse_superseders (superseders : list SectionPlugin) : Op SectionsParser unit :=
  match superseders with
  | [] => ret tt
  | superseder :: rest =>
      let* parsed := parse (name superseder) (parse_function superseder) in
      let* _ := (λ parser,
                   match parsed with
                   | Some _ => Returns tt (disable (elements (supersedes superseder)) parser)
                   | None => Returns tt parser
                   end) in
      parse_superseders rest
  end.

(** The outer loop of [resolve]:
    [for producer in self._producers.get(parsed_section_name, ())];
    it leaves with the first producer whose raw section parses. *)
Fixpoint try_producers (self : ParsedSectionsResolver) (producers : list SectionPlugin)
  : Op SectionsParser (option ResolvedResult) :=
  match producers with
  | [] => ret None
  | producer :: rest =>
      let* _ := parse_superseders (default [] (_superseders self !! name producer)) in
      let* parsing_result := parse (name producer) (parse_function producer) in
      match parsing_result with
      | Some parsing_result =>
          ret (Some {| section := producer;
                       parsed_data := data parsing_result;
                       rr_cache_info := cache_info parsing_result |})
      | None => try_producers self rest
      end
  end.

(** [dict.setdefault(key, default)] on the memo of the resolver. *)
Definition resolved_setdefault (parsed_section_name : ParsedSectionName)
    (default : option ResolvedResult) (self : ParsedSectionsResolver)
  : option ResolvedResult * ParsedSectionsResolver :=
  match _memoized_resolved self !! parsed_section_name with
  | Some r => (r, self)
  | None => (default,
             set_resolved self (<[parsed_section_name := default]> (_memoized_resolved self)))
  end.

(** [ParsedSectionsResolver.resolve]; the state is the resolver together
    with the parser it is handed. *)
Definition resolve (parsed_section_name : ParsedSectionName)
  : Op (ParsedSectionsResolver * SectionsParser) (option ResolvedResult) :=
  λ '(self, parser),
    match _memoized_resolved self !! parsed_section_name with
    | Some r => Returns r (self, parser)
    | None =>
        match try_producers self (default [] (_producers self !! parsed_section_name)) parser with
        | Raises e parser => Raises e (self, parser)
        | Returns found parser =>
            let '(r, self) := resolved_setdefault parsed_section_name found self in
            Returns r (self, parser)
        end
    end.

(** ** ParsedSectionsBroker *)

Abbreviation Provider := (ParsedSectionsResolver * SectionsParser)%type.

(** The inner [for] of the dictionary comprehension of
    [ParsedSectionsBroker.resolve], for one provider. *)
Fixpoint resolve_names (parsed_section_names : list ParsedSectionName)
    (output : gmap ParsedSectionName ResolvedResult)
  : Op Provider (gmap ParsedSectionName ResolvedResult) :=
  match parsed_section_names with
  | [] => ret output
  | parsed_section_name :: rest =>
      let* resolved := resolve parsed_section_name in
      resolve_names rest
        match resolved with
        | Some resolved => <[parsed_section_name := resolved]> output
        | None => output
        end
  end.

(** The outer [for] of the comprehension; the state is the sequence of
    providers, each with the state its resolver and parser have reached. *)
Fixpoint resolve_providers (parsed_section_names : list ParsedSectionName)
    (done_ todo : list Provider) (output : gmap ParsedSectionName ResolvedResult)
  : Outcome (list Provider) (gmap ParsedSectionName ResolvedResult) :=
  match todo with
  | [] => Returns output done_
  | provider :: rest =>
      match resolve_names parsed_section_names output provider with
      | Raises e provider => Raises e (done_ ++ provider :: rest)
      | Returns output provider =>
          resolve_providers parsed_section_names (done_ ++ [provider]) rest output
      end
  end.

(** [ParsedSectionsBroker.resolve] *)
Definition ParsedSectionsBroker_resolve (parsed_section_names : list ParsedSectionName)
  : Op (list Provider) (gmap ParsedSectionName ResolvedResult) :=
  λ providers, resolve_providers parsed_section_names [] providers ∅.


(** ** Cache info aggregation *)

(** [min(iterable)] and [max(iterable)] of Python on an iterable whose
    first item is [x]: the first item is kept until a strictly smaller
    (greater) one comes. *)
Definition py_min (x : Z) (rest : list Z) : Z :=
  foldl (λ m y, if y <? m then y else m) x rest.

Definition py_max (x : Z) (rest : list Z) : Z :=
  foldl (λ m y, if m <? y then y else m) x rest.

(** [ParsedSectionsBroker.get_cache_info] *)
Definition get_cache_info (cache_infos : list _CacheInfo) : option _CacheInfo :=
  match cache_infos with
  | [] => None
  | (ats, intervals) :: rest => Some (py_min ats rest.*1, py_max intervals rest.*2)
  end.

(** ** Piggybacked sections *)

(** [store_piggybacked_sections] *)
Fixpoint store_piggybacked_sections
    (collected_host_sections : list (HostKey * HostSections))
    (store : list StoreCall) : list StoreCall :=
  match collected_host_sections with
  | [] => store
  | (host_key, host_sections) :: rest =>
      if decide (source_type host_key = MANAGEMENT)
      then store_piggybacked_sections rest store                  (* continue *)
      else store_piggybacked_sections rest
             (store ++ [(hostname host_key, piggybacked_raw_data host_sections)])
  end.

(** ** Providers *)

(** [[section_plugins[section_name] for section_name in host_sections.sections]] *)
Fixpoint lookup_plugins (section_plugins : gmap SectionName SectionPlugin)
    (section_names : list SectionName) : Called (list SectionPlugin) :=
  match section_names with
  | [] => Return []
  | section_name :: rest =>
      match section_plugins !! section_name with
      | None => Raise (KeyError section_name)
      | Some plugin =>
          match lookup_plugins section_plugins rest with
          | Return plugins => Return (plugin :: plugins)
          | Raise e => Raise e
          end
      end
  end.

(** [make_providers]; the result keeps the order of [host_sections]. *)
Fixpoint make_providers (host_sections : list (HostKey * HostSections))
    (section_plugins : gmap SectionName SectionPlugin)
  : Called (list (HostKey * Provider)) :=
  match host_sections with
  | [] => Return []
  | (host_key, host_sections_) :: rest =>
      match lookup_plugins section_plugins (dict_keys (sections host_sections_)) with
      | Raise e => Raise e
      | Return plugins =>
          let provider :=
            (ParsedSectionsResolver_init plugins,
             SectionsParser_init host_sections_ (hostname host_key)) in
          match make_providers rest section_plugins with
          | Return providers => Return ((host_key, provider) :: providers)
          | Raise e => Raise e
          end
      end
  end.

End data_provider.

(** * Properties *)

Section properties.

Context {Content : Type}.
Variable debug_enabled : bool.
Variable create_section_crash_dump : SectionName → RawData → HostName → string.

Local Abbreviation _parse_raw_data := (_parse_raw_data debug_enabled create_section_crash_dump).
Local Abbreviation parse := (parse debug_enabled create_section_crash_dump).
Local Abbreviation run_calls := (run_calls debug_enabled create_section_crash_dump).
Local Abbreviation parse_superseders :=
  (parse_superseders debug_enabled create_section_crash_dump).
Local Abbreviation try_producers := (try_producers debug_enabled create_section_crash_dump).
Local Abbreviation resolve := (resolve debug_enabled create_section_crash_dump).
Local Abbreviation resolve_names := (resolve_names debug_enabled create_section_crash_dump).
Local Abbreviation resolve_providers :=
  (resolve_providers debug_enabled create_section_crash_dump).
Local Abbreviation ParsedSectionsBroker_resolve :=
  (ParsedSectionsBroker_resolve debug_enabled create_section_crash_dump).

Implicit Types (self parser : @SectionsParser Content) (f g : @ParseFunction Content).
Implicit Types (s section_name : SectionName) (l : list SectionName).

(** ** The parser, call by call *)

Lemma parse_memoized self s f r :
  _memoized_results self !! s = Some r → parse s f self = Returns r self.
Proof. intros Hm. unfold parse. by rewrite Hm. Qed.

Lemma parse_no_raw_data self s f :
  _memoized_results self !! s = None →
  dict_get s (sections (_host_sections self)) = None →
  parse s f self = Returns None (memoize self s None).
Proof.
  intros Hm Hraw. unfold parse, bind, _parse_raw_data, memo_setdefault.
  by rewrite Hm, Hraw, Hm.
Qed.

Lemma parse_returned self s f raw parsed :
  _memoized_results self !! s = None →
  dict_get s (sections (_host_sections self)) = Some raw →
  f raw = Return parsed →
  parse s f self =
    Returns (parsing_result self s parsed)
            (memoize (record_call self s) s (parsing_result self s parsed)).
Proof.
  intros Hm Hraw Hf. unfold parse, bind, _parse_raw_data, memo_setdefault.
  rewrite Hm, Hraw, Hf. simpl. by rewrite Hm.
Qed.

Lemma parse_raised self s f raw e :
  debug_enabled = false →
  _memoized_results self !! s = None →
  dict_get s (sections (_host_sections self)) = Some raw →
  f raw = Raise e →
  parse s f self =
    Returns None
      (memoize (append_parsing_error (record_call self s)
                  (create_section_crash_dump s raw (_host_name self))) s None).
Proof.
  intros Hd Hm Hraw Hf. unfold parse, bind, _parse_raw_data, memo_setdefault.
  rewrite Hm, Hraw, Hf, Hd. simpl. by rewrite Hm.
Qed.

Lemma parse_raised_debug self s f raw e :
  debug_enabled = true →
  _memoized_results self !! s = None →
  dict_get s (sections (_host_sections self)) = Some raw →
  f raw = Raise e →
  parse s f self = Raises e (record_call self s).
Proof.
  intros Hd Hm Hraw Hf. unfold parse, bind, _parse_raw_data.
  by rewrite Hm, Hraw, Hf, Hd.
Qed.

(** Every way a call of [parse] can return. *)
Lemma parse_Returns_inv self s f r self' :
  parse s f self = Returns r self' →
  (_memoized_results self !! s = Some r ∧ self' = self) ∨
  (_memoized_results self !! s = None ∧
   _memoized_results self' = <[s := r]> (_memoized_results self) ∧
   _host_sections self' = _host_sections self ∧
   _host_name self' = _host_name self ∧
   ((dict_get s (sections (_host_sections self)) = None ∧ r = None ∧
     parse_calls self' = parse_calls self ∧
     _parsing_errors self' = _parsing_errors self) ∨
    (∃ raw, dict_get s (sections (_host_sections self)) = Some raw ∧
       parse_calls self' = parse_calls self ++ [s] ∧
       ((∃ parsed, f raw = Return parsed ∧ r = parsing_result self s parsed ∧
           _parsing_errors self' = _parsing_errors self) ∨
        (∃ e, f raw = Raise e ∧ debug_enabled = false ∧ r = None ∧
           _parsing_errors self' =
             _parsing_errors self ++ [create_section_crash_dump s raw (_host_name self)]))))).
Proof.
  intros Hp. destruct (_memoized_results self !! s) as [r0|] eqn:Hm.
  - rewrite (parse_memoized _ _ _ _ Hm) in Hp. left. by simplify_eq.
  - right. split; [done|].
    destruct (dict_get s (sections (_host_sections self))) as [raw|] eqn:Hraw.
    + destruct (f raw) as [parsed|e] eqn:Hf.
      * rewrite (parse_returned _ _ _ _ _ Hm Hraw Hf) in Hp. simplify_eq. simpl.
        repeat split; try done. right. exists raw. repeat split; try done.
        left. by exists parsed.
      * destruct (Sumbool.sumbool_of_bool debug_enabled) as [Hd|Hd].
        -- by rewrite (parse_raised_debug _ _ _ _ _ Hd Hm Hraw Hf) in Hp.
        -- rewrite (parse_raised _ _ _ _ _ Hd Hm Hraw Hf) in Hp. simplify_eq. simpl.
           repeat split; try done. right. exists raw. repeat split; try done.
           right. by exists e.
    + rewrite (parse_no_raw_data _ _ _ Hm Hraw) in Hp. simplify_eq. simpl.
      repeat split; try done. by left.
Qed.

(** With debug mode off a call of [parse] returns. *)
Lemma parse_returns self s f :
  debug_enabled = false → ∃ r self', parse s f self = Returns r self'.
Proof.
  intros Hd. destruct (_memoized_results self !! s) as [r0|] eqn:Hm.
  { rewrite (parse_memoized _ _ _ _ Hm). eauto. }
  destruct (dict_get s (sections (_host_sections self))) as [raw|] eqn:Hraw.
  - destruct (f raw) as [parsed|e] eqn:Hf.
    + rewrite (parse_returned _ _ _ _ _ Hm Hraw Hf). eauto.
    + rewrite (parse_raised _ _ _ _ _ Hd Hm Hraw Hf). eauto.
  - rewrite (parse_no_raw_data _ _ _ Hm Hraw). eauto.
Qed.

(** What [parse] returned is what is memoized afterwards. *)
Lemma parse_memoizes self s f r self' :
  parse s f self = Returns r self' → _memoized_results self' !! s = Some r.
Proof.
  intros [[Hm ->]|(_ & -> & _)]%parse_Returns_inv; [done|]. apply lookup_insert_eq.
Qed.

(** [parse] never replaces an entry of the memo. *)
Lemma parse_keeps_memoized self s f r self' s' r' :
  parse s f self = Returns r self' →
  _memoized_results self !! s' = Some r' → _memoized_results self' !! s' = Some r'.
Proof.
  intros [[Hm ->]|(Hm & -> & _)]%parse_Returns_inv Hs'; [done|].
  rewrite lookup_insert_ne; [done|]. intros ->. congruence.
Qed.

(** ** Disabling *)

Lemma disable_host_sections l self :
  _host_sections (disable l self) = _host_sections self.
Proof. revert self. induction l as [|s l IH]; intros self; [done|]. simpl. by rewrite IH. Qed.

Lemma disable_host_name l self : _host_name (disable l self) = _host_name self.
Proof. revert self. induction l as [|s l IH]; intros self; [done|]. simpl. by rewrite IH. Qed.

Lemma disable_parsing_errors l self :
  _parsing_errors (disable l self) = _parsing_errors self.
Proof. revert self. induction l as [|s l IH]; intros self; [done|]. simpl. by rewrite IH. Qed.

Lemma disable_parse_calls l self : parse_calls (disable l self) = parse_calls self.
Proof. revert self. induction l as [|s l IH]; intros self; [done|]. simpl. by rewrite IH. Qed.

Lemma disable_lookup l self s :
  _memoized_results (disable l self) !! s =
    if decide (s ∈ l) then Some None else _memoized_results self !! s.
Proof.
  revert self. induction l as [|s' l IH]; intros self.
  - rewrite decide_False; [done|]. apply not_elem_of_nil.
  - change (disable (s' :: l) self) with (disable l (memoize self s' None)).
    rewrite IH. simpl. destruct (decide (s ∈ l)) as [Hl|Hl].
    + rewrite decide_True; [done|]. by right.
    + destruct (decide (s = s')) as [->|Hne].
      * rewrite decide_True; [|by left]. apply lookup_insert_eq.
      * rewrite decide_False; [by rewrite lookup_insert_ne|].
        intros [?|?]%elem_of_cons; done.
Qed.

Lemma disable_lookup_elem l self s :
  s ∈ l → _memoized_results (disable l self) !! s = Some None.
Proof. intros Hl. rewrite disable_lookup. by rewrite decide_True. Qed.

Lemma disable_lookup_not_elem l self s :
  s ∉ l → _memoized_results (disable l self) !! s = _memoized_results self !! s.
Proof. intros Hl. rewrite disable_lookup. by rewrite decide_False. Qed.

(** ** Memoization *)

(** A second call with the same section name returns what the first one
    returned and leaves the parser as it is, whatever parse function it
    is handed. *)
Lemma parse_again self s f g r self' :
  parse s f self = Returns r self' → parse s g self' = Returns r self'.
Proof. intros Hp. apply parse_memoized. by eapply parse_memoizes. Qed.

(** Every section whose parse function was invoked is memoized, and no
    section was invoked twice. *)
Definition called_once self : Prop :=
  NoDup (parse_calls self) ∧
  ∀ s, s ∈ parse_calls self → is_Some (_memoized_results self !! s).

Lemma called_once_init hs hn : called_once (SectionsParser_init hs hn).
Proof. split; [constructor|]. intros s Hs. by apply elem_of_nil in Hs. Qed.

Lemma called_once_parse self s f r self' :
  called_once self → parse s f self = Returns r self' → called_once self'.
Proof.
  intros [Hnd Hmem] [[_ ->]|(Hm & Hm' & _ & _ & Hcalls)]%parse_Returns_inv; [done|].
  assert (Hfresh : s ∉ parse_calls self).
  { intros [x Hx]%Hmem. congruence. }
  assert (Hkeep : ∀ s', is_Some (_memoized_results self !! s') →
                        is_Some (_memoized_results self' !! s')).
  { intros s' [x Hx]. rewrite Hm'. destruct (decide (s = s')) as [->|Hne].
    - rewrite lookup_insert_eq. eauto.
    - rewrite lookup_insert_ne by done. eauto. }
  unfold called_once.
  destruct Hcalls as [(_ & _ & -> & _)|(raw & _ & -> & _)].
  - split; [done|]. auto.
  - split.
    + apply NoDup_app. split; [done|]. split; [|apply NoDup_singleton].
      intros x Hx ->%list_elem_of_singleton. done.
    + intros s' [Hs'| ->%list_elem_of_singleton]%elem_of_app; [auto|].
      rewrite Hm', lookup_insert_eq. eauto.
Qed.

Lemma called_once_disable self l : called_once self → called_once (disable l self).
Proof.
  intros [Hnd Hmem]. split; rewrite disable_parse_calls; [done|].
  intros s Hs. rewrite disable_lookup. case_decide; eauto.
Qed.

Lemma run_calls_called_once calls self rs self' :
  called_once self → run_calls calls self = Returns rs self' → called_once self'.
Proof.
  revert self rs. induction calls as [|[s f|l] calls IH]; intros self rs Hinv Hrun.
  - simpl in Hrun. unfold ret in Hrun. by simplify_eq.
  - simpl in Hrun. unfold bind at 1 in Hrun.
    destruct (parse s f self) as [r self1|] eqn:Hp; [|done].
    unfold bind, ret in Hrun.
    destruct (run_calls calls self1) as [rs1 self2|] eqn:Hr; [|done].
    simplify_eq. eapply IH; [|done]. by eapply called_once_parse.
  - simpl in Hrun. unfold bind in Hrun. eapply IH; [|done]. by apply called_once_disable.
Qed.

(** With debug mode off no sequence of calls raises. *)
Lemma run_calls_returns calls self :
  debug_enabled = false → ∃ rs self', run_calls calls self = Returns rs self'.
Proof.
  intros Hd. revert self. induction calls as [|[s f|l] calls IH]; intros self.
  - by eexists _, _.
  - destruct (parse_returns self s f Hd) as (r & self1 & Hp).
    destruct (IH self1) as (rs & self2 & Hr).
    exists (r :: rs), self2. simpl. unfold bind, ret. by rewrite Hp, Hr.
  - destruct (IH (disable l self)) as (rs & self2 & Hr).
    exists rs, self2. simpl. unfold bind. by rewrite Hr.
Qed.

(** An entry that [disable] or a finished [parse] has set to absent
    stays absent through every later call. *)
Lemma run_calls_keeps_absent calls self rs self' s :
  _memoized_results self !! s = Some None →
  run_calls calls self = Returns rs self' →
  _memoized_results self' !! s = Some None.
Proof.
  revert self rs. induction calls as [|[s0 f|l] calls IH]; intros self rs Hm Hrun.
  - simpl in Hrun. unfold ret in Hrun. by simplify_eq.
  - simpl in Hrun. unfold bind at 1 in Hrun.
    destruct (parse s0 f self) as [r self1|] eqn:Hp; [|done].
    unfold bind, ret in Hrun.
    destruct (run_calls calls self1) as [rs1 self2|] eqn:Hr; [|done].
    simplify_eq. eapply IH; [|done]. by eapply parse_keeps_memoized.
  - simpl in Hrun. unfold bind in Hrun. eapply IH; [|done].
    rewrite disable_lookup. by case_decide.
Qed.

(** An entry of the memo stays as it is through every call but a
    [disable] of its section name. *)
Lemma run_calls_keeps_memoized calls self rs self' s r :
  _memoized_results self !! s = Some r →
  (∀ l, CallDisable l ∈ calls → s ∉ l) →
  run_calls calls self = Returns rs self' →
  _memoized_results self' !! s = Some r.
Proof.
  revert self rs. induction calls as [|[s0 f|l0] calls IH]; intros self rs Hm Hnd Hrun.
  - simpl in Hrun. unfold ret in Hrun. by simplify_eq.
  - simpl in Hrun. unfold bind at 1 in Hrun.
    destruct (parse s0 f self) as [r0 self1|] eqn:Hp; [|done].
    unfold bind, ret in Hrun.
    destruct (run_calls calls self1) as [rs1 self2|] eqn:Hr; [|done].
    simplify_eq. eapply IH; [| |done].
    + by eapply parse_keeps_memoized.
    + intros l Hl. apply Hnd. by right.
  - simpl in Hrun. unfold bind in Hrun. eapply IH; [| |done].
    + rewrite disable_lookup_not_elem; [done|]. apply Hnd. by left.
    + intros l Hl. apply Hnd. by right.
Qed.

(** C3, as amended: with debug mode off every call of a parser returns.
    Whatever calls [calls1] a parser has served since it was created, a
    [parse] of a section name and a later [parse] of the same name, with
    any calls [calls2] between them none of which is a [disable] of that
    name, return the identical outcome (absent included), the later one
    without invoking a parse function; and at each point no parse function
    has been invoked twice for one section name. *)
Theorem parse_memoized_at_most_once hs hn calls1 s f calls2 g :
  debug_enabled = false →
  (∀ l, CallDisable l ∈ calls2 → s ∉ l) →
  ∃ rs1 self r self1 rs2 self2,
    run_calls calls1 (SectionsParser_init hs hn) = Returns rs1 self ∧
    NoDup (parse_calls self) ∧
    parse s f self = Returns r self1 ∧
    run_calls calls2 self1 = Returns rs2 self2 ∧
    parse s g self2 = Returns r self2 ∧
    NoDup (parse_calls self2).
Proof.
  intros Hd Hnd.
  destruct (run_calls_returns calls1 (SectionsParser_init hs hn) Hd) as (rs1 & self & Hrun1).
  pose proof (run_calls_called_once _ _ _ _ (called_once_init hs hn) Hrun1) as Hinv.
  destruct (parse_returns self s f Hd) as (r & self1 & Hp).
  pose proof (called_once_parse _ _ _ _ _ Hinv Hp) as Hinv1.
  destruct (run_calls_returns calls2 self1 Hd) as (rs2 & self2 & Hrun2).
  pose proof (run_calls_called_once _ _ _ _ Hinv1 Hrun2) as Hinv2.
  exists rs1, self, r, self1, rs2, self2.
  split; [done|]. split; [apply Hinv|]. split; [done|]. split; [done|].
  split; [|apply Hinv2].
  apply parse_memoized. eapply run_calls_keeps_memoized; [|done|done].
  by eapply parse_memoizes.
Qed.

(** C9: once [disable] was called with a list that holds [s], every later
    [parse] of [s] returns absent and leaves the parser as it is (no parse
    function is invoked), whatever was memoized for [s] before, a
    successful parsing result included, and whatever calls came between. *)
Theorem disable_overwrites_memoized self l s calls rs self' f :
  s ∈ l →
  run_calls calls (disable l self) = Returns rs self' →
  parse s f self' = Returns None self'.
Proof.
  intros Hl Hrun. apply parse_memoized.
  eapply run_calls_keeps_absent; [|done]. by apply disable_lookup_elem.
Qed.

(** ** The two tables of the resolver *)

Implicit Types (r resolver : @ParsedSectionsResolver Content).
Implicit Types (p producer superseder : @SectionPlugin Content).

Lemma setdefault_append_lookup {V : Type} (k k' : string) (x : V) (d : gmap string (list V)) :
  default [] (setdefault_append k x d !! k') =
    default [] (d !! k') ++ (if decide (k = k') then [x] else []).
Proof.
  unfold setdefault_append. destruct (decide (k = k')) as [->|Hne].
  - destruct (d !! k') as [l0|] eqn:Hd; by rewrite lookup_insert_eq.
  - destruct (d !! k) as [l0|] eqn:Hd; rewrite lookup_insert_ne by done;
      by rewrite app_nil_r.
Qed.

Lemma init_producers_acc (ps : list (@SectionPlugin Content)) d P :
  default [] (foldl (λ producers section,
                       setdefault_append (parsed_section_name section) section producers)
                    d ps !! P) =
    default [] (d !! P) ++ filter (λ p, parsed_section_name p = P) ps.
Proof.
  revert d. induction ps as [|p ps IH]; intros d; simpl.
  - by rewrite app_nil_r.
  - rewrite IH, setdefault_append_lookup, filter_cons.
    destruct (decide (parsed_section_name p = P)); simpl.
    + by rewrite <-app_assoc.
    + by rewrite app_nil_r.
Qed.

(** The producers of a parsed section name are the plugins with that
    parsed section name, in the order of registration. *)
Lemma init_producers_lookup (ps : list (@SectionPlugin Content)) P :
  default [] (_init_producers ps !! P) = filter (λ p, parsed_section_name p = P) ps.
Proof. unfold _init_producers. by rewrite init_producers_acc, lookup_empty. Qed.

Lemma init_superseders_inner (p : @SectionPlugin Content) l d n :
  NoDup l →
  default [] (foldl (λ superseders superseded, setdefault_append superseded p superseders)
                    d l !! n) =
    default [] (d !! n) ++ (if decide (n ∈ l) then [p] else []).
Proof.
  intros Hnd. revert d. induction Hnd as [|s l Hs Hnd IH]; intros d; simpl.
  - by rewrite app_nil_r.
  - rewrite IH, setdefault_append_lookup. destruct (decide (s = n)) as [->|Hne].
    + rewrite (decide_False (P := n ∈ l)) by done.
      rewrite decide_True by left. by rewrite app_nil_r.
    + rewrite app_nil_r. destruct (decide (n ∈ l)) as [Hl|Hl].
      * by rewrite decide_True by (by right).
      * rewrite decide_False; [done|]. intros [?|?]%elem_of_cons; by simplify_eq.
Qed.

Lemma init_superseders_acc (ps : list (@SectionPlugin Content)) d n :
  default [] (foldl (λ superseders section,
                       foldl (λ superseders superseded,
                                setdefault_append superseded section superseders)
                             superseders (elements (supersedes section)))
                    d ps !! n) =
    default [] (d !! n) ++ filter (λ p, n ∈ supersedes p) ps.
Proof.
  revert d. induction ps as [|p ps IH]; intros d; simpl.
  - by rewrite app_nil_r.
  - rewrite IH, init_superseders_inner by apply NoDup_elements. rewrite filter_cons.
    destruct (decide (n ∈ supersedes p)) as [Hin|Hin].
    + rewrite decide_True by (by apply elem_of_elements). by rewrite <-app_assoc.
    + rewrite decide_False by (by rewrite elem_of_elements). by rewrite app_nil_r.
Qed.

(** The superseders of a raw section are the plugins that declare to
    supersede it, in the order of registration. *)
Lemma init_superseders_lookup (ps : list (@SectionPlugin Content)) n :
  default [] (_init_superseders ps !! n) = filter (λ p, n ∈ supersedes p) ps.
Proof. unfold _init_superseders. by rewrite init_superseders_acc, lookup_empty. Qed.

(** ** The resolver, step by step *)

Lemma parse_superseders_nil self : parse_superseders [] self = Returns tt self.
Proof. done. Qed.

Lemma parse_superseders_parsed p rest self pr self1 :
  parse (name p) (parse_function p) self = Returns (Some pr) self1 →
  parse_superseders (p :: rest) self =
    parse_superseders rest (disable (elements (supersedes p)) self1).
Proof. intros Hp. simpl. unfold bind. by rewrite Hp. Qed.

Lemma parse_superseders_absent p rest self self1 :
  parse (name p) (parse_function p) self = Returns None self1 →
  parse_superseders (p :: rest) self = parse_superseders rest self1.
Proof. intros Hp. simpl. unfold bind. by rewrite Hp. Qed.

Definition resolved_result p (pr : @_ParsingResult Content) : ResolvedResult :=
  {| section := p; parsed_data := data pr; rr_cache_info := cache_info pr |}.

Lemma try_producers_nil r self : try_producers r [] self = Returns None self.
Proof. done. Qed.

Lemma try_producers_found r p rest self self1 pr self2 :
  parse_superseders (default [] (_superseders r !! name p)) self = Returns tt self1 →
  parse (name p) (parse_function p) self1 = Returns (Some pr) self2 →
  try_producers r (p :: rest) self = Returns (Some (resolved_result p pr)) self2.
Proof. intros Hs Hp. simpl. unfold bind. by rewrite Hs, Hp. Qed.

Lemma try_producers_next r p rest self self1 self2 :
  parse_superseders (default [] (_superseders r !! name p)) self = Returns tt self1 →
  parse (name p) (parse_function p) self1 = Returns None self2 →
  try_producers r (p :: rest) self = try_producers r rest self2.
Proof. intros Hs Hp. simpl. unfold bind. by rewrite Hs, Hp. Qed.

Lemma resolve_memoized r parser P x :
  _memoized_resolved r !! P = Some x → resolve P (r, parser) = Returns x (r, parser).
Proof. intros Hm. unfold resolve. by rewrite Hm. Qed.

Lemma resolve_fresh r parser P found parser' :
  _memoized_resolved r !! P = None →
  try_producers r (default [] (_producers r !! P)) parser = Returns found parser' →
  resolve P (r, parser) =
    Returns found (set_resolved r (<[P := found]> (_memoized_resolved r)), parser').
Proof. intros Hm Ht. unfold resolve, resolved_setdefault. by rewrite Hm, Ht. Qed.

Lemma resolve_raises r parser P e parser' :
  _memoized_resolved r !! P = None →
  try_producers r (default [] (_producers r !! P)) parser = Raises e parser' →
  resolve P (r, parser) = Raises e (r, parser').
Proof. intros Hm Ht. unfold resolve. by rewrite Hm, Ht. Qed.

(** A resolver as its constructor leaves it. *)

Lemma init_superseders_default ps n :
  default [] (_superseders (ParsedSectionsResolver_init ps) !! n) =
    filter (λ p, n ∈ supersedes p) ps.
Proof. apply init_superseders_lookup. Qed.

Lemma try_producers_init_found ps p rest self self1 pr self2 :
  parse_superseders (filter (λ q, name p ∈ supersedes q) ps) self = Returns tt self1 →
  parse (name p) (parse_function p) self1 = Returns (Some pr) self2 →
  try_producers (ParsedSectionsResolver_init ps) (p :: rest) self =
    Returns (Some (resolved_result p pr)) self2.
Proof. rewrite <-init_superseders_default. apply try_producers_found. Qed.

Lemma try_producers_init_next ps p rest self self1 self2 :
  parse_superseders (filter (λ q, name p ∈ supersedes q) ps) self = Returns tt self1 →
  parse (name p) (parse_function p) self1 = Returns None self2 →
  try_producers (ParsedSectionsResolver_init ps) (p :: rest) self =
    try_producers (ParsedSectionsResolver_init ps) rest self2.
Proof. rewrite <-init_superseders_default. apply try_producers_next. Qed.

Lemma resolve_init ps parser P found parser' :
  try_producers (ParsedSectionsResolver_init ps)
    (filter (λ p, parsed_section_name p = P) ps) parser = Returns found parser' →
  ∃ resolver',
    resolve P (ParsedSectionsResolver_init ps, parser) = Returns found (resolver', parser').
Proof.
  intros Ht. eexists. apply resolve_fresh; [apply lookup_empty|].
  simpl. by rewrite init_producers_lookup.
Qed.

(** Evaluates the [filter]s that select producers and superseders among
    explicitly listed plugins, from the hypotheses at hand. *)
Ltac select_plugins :=
  rewrite ?filter_cons, ?filter_nil;
  repeat (case_decide; try contradiction; try congruence).

(** The loop over the superseders keeps every property of the parser that
    each of its steps keeps. *)
Lemma parse_superseders_invariant (I : @SectionsParser Content → Prop) sups :
  (∀ p self, p ∈ sups → I self →
     ∃ res self', parse (name p) (parse_function p) self = Returns res self' ∧ I self' ∧
                  (is_Some res → I (disable (elements (supersedes p)) self'))) →
  ∀ self, I self → ∃ self', parse_superseders sups self = Returns tt self' ∧ I self'.
Proof.
  induction sups as [|p sups IH]; intros Hstep self HI.
  - by exists self.
  - destruct (Hstep p self) as (res & self1 & Hp & HI1 & Hdis); [by left|done|].
    assert (Hrest : ∀ q self, q ∈ sups → I self →
              ∃ res self', parse (name q) (parse_function q) self = Returns res self' ∧
                           I self' ∧ (is_Some res → I (disable (elements (supersedes q)) self'))).
    { intros q self0 Hq. apply Hstep. by right. }
    destruct res as [pr|].
    + rewrite (parse_superseders_parsed _ _ _ _ _ Hp). apply IH; [done|]. apply Hdis. eauto.
    + rewrite (parse_superseders_absent _ _ _ _ Hp). by apply IH.
Qed.

(** C7: [A] and [B] both produce [P] and [B] supersedes the raw section of
    [A]; the host has raw data for [A], which [A] parses to [v], and none
    for [B].  Then a new resolver for the two plugins, in either order of
    registration, resolves [P] on a new parser to the content of [A]. *)
Theorem fallback_on_absent_superseder (A B : @SectionPlugin Content) P hs hn raw_a v plugins :
  parsed_section_name A = P → parsed_section_name B = P →
  name A ≠ name B →
  name A ∈ supersedes B →
  name A ∉ supersedes A →
  dict_get (name B) (sections hs) = None →
  dict_get (name A) (sections hs) = Some raw_a →
  parse_function A raw_a = Return (Some v) →
  plugins = [A; B] ∨ plugins = [B; A] →
  ∃ resolver' parser',
    resolve P (ParsedSectionsResolver_init plugins, SectionsParser_init hs hn) =
      Returns (Some {| section := A; parsed_data := v;
                       rr_cache_info := hs_cache_info hs !! name A |})
              (resolver', parser').
Proof.
  intros HPA HPB Hne HsB HsA Hb Ha Hf Hplugins.
  set (ra := {| data := v; cache_info := hs_cache_info hs !! name A |}).
  (* what holds of the parser all along: [B] is not parsed to anything,
     [A] is parsed to [ra] or not parsed yet *)
  set (I := λ self : @SectionsParser Content,
         _host_sections self = hs ∧
         (_memoized_results self !! name B = None ∨
          _memoized_results self !! name B = Some None) ∧
         (_memoized_results self !! name A = None ∨
          _memoized_results self !! name A = Some (Some ra))).
  assert (HI0 : I (SectionsParser_init hs hn)).
  { split; [done|]. split; left; apply lookup_empty. }
  assert (HB : ∀ self, I self →
            ∃ self', parse (name B) (parse_function B) self = Returns None self' ∧ I self').
  { intros self (Hhs & [Hmb|Hmb] & Hma).
    - eexists. split; [apply parse_no_raw_data; [done|by rewrite Hhs]|].
      split; [done|]. simpl. rewrite lookup_insert_eq, lookup_insert_ne by done. auto.
    - exists self. split; [by apply parse_memoized|]. unfold I. auto. }
  assert (HA : ∀ self, I self →
            ∃ self', parse (name A) (parse_function A) self = Returns (Some ra) self' ∧ I self').
  { intros self (Hhs & Hmb & [Hma|Hma]).
    - eexists. split.
      + erewrite parse_returned; [|done|by rewrite Hhs|done].
        unfold parsing_result. by rewrite Hhs.
      + split; [done|]. simpl. rewrite lookup_insert_eq, lookup_insert_ne by done. auto.
    - exists self. split; [by apply parse_memoized|]. unfold I. auto. }
  assert (HdA : ∀ self, I self → I (disable (elements (supersedes A)) self)).
  { intros self (Hhs & Hmb & Hma). split; [by rewrite disable_host_sections|].
    split.
    - rewrite disable_lookup. case_decide; auto.
    - rewrite disable_lookup_not_elem; [done|]. by rewrite elem_of_elements. }
  assert (Hsups : ∀ sups self, (∀ p, p ∈ sups → p = A ∨ p = B) → I self →
            ∃ self', parse_superseders sups self = Returns tt self' ∧ I self').
  { intros sups self Hsub. apply parse_superseders_invariant.
    intros p self0 [->| ->]%Hsub HI.
    - destruct (HA _ HI) as (self' & Hp & HI'). exists (Some ra), self'. auto.
    - destruct (HB _ HI) as (self' & Hp & HI'). exists None, self'.
      split; [done|]. split; [done|]. by intros [??]. }
  assert (Hlist : ∀ p, p ∈ plugins → p = A ∨ p = B).
  { destruct Hplugins as [-> | ->];
      intros p [->|[->|?%elem_of_nil]%elem_of_cons]%elem_of_cons; auto; done. }
  assert (Hfilter : ∀ n p, p ∈ filter (λ q, n ∈ supersedes q) plugins → p = A ∨ p = B).
  { intros n p [_ Hp]%list_elem_of_filter. auto. }
  cut (∃ parser', try_producers (ParsedSectionsResolver_init plugins)
                    (filter (λ p, parsed_section_name p = P) plugins)
                    (SectionsParser_init hs hn) =
                  Returns (Some (resolved_result A ra)) parser').
  { intros [parser' [resolver' Hr]%resolve_init]. by exists resolver', parser'. }
  assert (HtryA : ∀ rest self, I self →
            ∃ self', try_producers (ParsedSectionsResolver_init plugins) (A :: rest) self =
                     Returns (Some (resolved_result A ra)) self').
  { intros rest self HI.
    destruct (Hsups _ self (Hfilter (name A)) HI) as (self1 & Hs1 & HI1).
    destruct (HA _ HI1) as (self2 & Hp2 & _).
    exists self2. by eapply try_producers_init_found. }
  destruct Hplugins as [-> | ->]; select_plugins.
  - by apply HtryA.
  - destruct (Hsups _ (SectionsParser_init hs hn) (Hfilter (name B)) HI0) as (self1 & Hs1 & HI1).
    destruct (HB _ HI1) as (self2 & Hp2 & HI2).
    erewrite try_producers_init_next by done. by apply HtryA.
Qed.

(** C1, as amended: [A] and [B] both produce [P], [B] supersedes the raw
    section of [A] and nothing supersedes the raw section of [B]; the host
    has raw data for both and [B] parses its own to [v].  Then a new
    resolver for the two plugins, in either order of registration, resolves
    [P] on a new parser to [B] with the content [v]; and where [A] is
    registered before [B], a later direct [parse] of the raw section of
    [A] returns absent, without invoking the parse function. *)
Theorem superseder_wins (A B : @SectionPlugin Content) P hs hn raw_a raw_b v plugins :
  parsed_section_name A = P → parsed_section_name B = P →
  name A ≠ name B →
  name A ∈ supersedes B →
  name A ∉ supersedes A →
  name B ∉ supersedes A →
  name B ∉ supersedes B →
  dict_get (name A) (sections hs) = Some raw_a →
  dict_get (name B) (sections hs) = Some raw_b →
  parse_function B raw_b = Return (Some v) →
  plugins = [A; B] ∨ plugins = [B; A] →
  ∃ resolver' parser',
    resolve P (ParsedSectionsResolver_init plugins, SectionsParser_init hs hn) =
      Returns (Some {| section := B; parsed_data := v;
                       rr_cache_info := hs_cache_info hs !! name B |})
              (resolver', parser') ∧
    (plugins = [A; B] → ∀ f, parse (name A) f parser' = Returns None parser').
Proof.
  intros HPA HPB Hne HaB HaA HbA HbB Ha Hb Hf Hplugins.
  set (rb := {| data := v; cache_info := hs_cache_info hs !! name B |}).
  set (parser := SectionsParser_init hs hn).
  set (parser1 := memoize (record_call parser (name B)) (name B) (Some rb)).
  set (parser2 := disable (elements (supersedes B)) parser1).
  assert (Hparse_b : parse (name B) (parse_function B) parser = Returns (Some rb) parser1).
  { unfold parser1. erewrite parse_returned; [|apply lookup_empty|done|done]; reflexivity. }
  assert (Hma : _memoized_results parser2 !! name A = Some None).
  { apply disable_lookup_elem. by apply elem_of_elements. }
  assert (Hmb : _memoized_results parser2 !! name B = Some (Some rb)).
  { unfold parser2. rewrite disable_lookup_not_elem by (by rewrite elem_of_elements).
    apply lookup_insert_eq. }
  destruct Hplugins as [-> | ->].
  - (* [A] is tried first: its superseder [B] parses and disables it *)
    destruct (resolve_init [A; B] parser P (Some (resolved_result B rb)) parser2)
      as [resolver' Hr].
    { select_plugins.
      erewrite try_producers_init_next; [| |by apply parse_memoized].
      - eapply try_producers_init_found; [|by apply parse_memoized].
        select_plugins. apply parse_superseders_nil.
      - select_plugins. by erewrite parse_superseders_parsed. }
    exists resolver', parser2. split; [done|]. intros _ f. by apply parse_memoized.
  - (* [B] is tried first and parses; [A] is not looked at *)
    destruct (resolve_init [B; A] parser P (Some (resolved_result B rb)) parser1)
      as [resolver' Hr].
    { select_plugins. eapply try_producers_init_found; [|done].
      select_plugins. apply parse_superseders_nil. }
    exists resolver', parser1. split; [done|]. intros [= HBA _]. destruct Hne. by rewrite HBA.
Qed.

(** What one [parse] leaves untouched. *)
Lemma parse_frame self s f res self' :
  parse s f self = Returns res self' →
  _host_sections self' = _host_sections self ∧
  ∀ s', s' ≠ s → _memoized_results self' !! s' = _memoized_results self !! s'.
Proof.
  intros [[_ ->]|(_ & Hm & Hhs & _)]%parse_Returns_inv; [done|].
  split; [done|]. intros s' Hne. rewrite Hm. by rewrite lookup_insert_ne.
Qed.



(** ** Faults of parse functions *)

(** C4: with debug mode off, a [parse] whose parse function raises on the
    raw data of the section returns absent, appends exactly one entry to
    the parsing errors and memoizes absent for the section.  A plugin
    [good] for another raw section of the same host, the only producer of
    its parsed section name [P] and superseded by nothing, whose parse
    function returns [v], is resolved successfully afterwards, and the
    parsing errors stay at that one entry. *)
Theorem parse_fault_isolated self resolver bad f raw e good P raw_good v :
  debug_enabled = false →
  _memoized_results self !! bad = None →
  dict_get bad (sections (_host_sections self)) = Some raw →
  f raw = Raise e →
  name good ≠ bad →
  _memoized_results self !! name good = None →
  dict_get (name good) (sections (_host_sections self)) = Some raw_good →
  parse_function good raw_good = Return (Some v) →
  _memoized_resolved resolver !! P = None →
  default [] (_producers resolver !! P) = [good] →
  default [] (_superseders resolver !! name good) = [] →
  ∃ self',
    parse bad f self = Returns None self' ∧
    parsing_errors self' =
      parsing_errors self ++ [create_section_crash_dump bad raw (_host_name self)] ∧
    _memoized_results self' !! bad = Some None ∧
    ∃ resolver' self'',
      resolve P (resolver, self') =
        Returns (Some {| section := good; parsed_data := v;
                         rr_cache_info :=
                           hs_cache_info (_host_sections self) !! name good |})
                (resolver', self'') ∧
      parsing_errors self'' = parsing_errors self'.
Proof.
  intros Hd Hmb Hraw Hf Hne Hmg Hrawg Hfg HmP Hprod Hsup.
  set (rg := {| data := v; cache_info := hs_cache_info (_host_sections self) !! name good |}).
  set (self' := memoize (append_parsing_error (record_call self bad)
                           (create_section_crash_dump bad raw (_host_name self))) bad None).
  set (self'' := memoize (record_call self' (name good)) (name good) (Some rg)).
  assert (Hp : parse (name good) (parse_function good) self' = Returns (Some rg) self'').
  { erewrite parse_returned; [|simpl; by rewrite lookup_insert_ne|done|done]. reflexivity. }
  assert (Ht : try_producers resolver [good] self' =
               Returns (Some (resolved_result good rg)) self'').
  { eapply try_producers_found; [|exact Hp]. rewrite Hsup. apply parse_superseders_nil. }
  exists self'. split; [by eapply parse_raised|].
  split; [done|]. split; [apply lookup_insert_eq|].
  eexists _, self''. split; [|done].
  rewrite <-Hprod in Ht. by rewrite (resolve_fresh _ _ _ _ _ HmP Ht).
Qed.

(** ** The broker *)

Implicit Types (pr provider : @ParsedSectionsResolver Content * @SectionsParser Content).
Implicit Types (output : gmap ParsedSectionName (@ResolvedResult Content)).

(** What [resolve] returned is memoized afterwards, and [resolve] never
    replaces an entry of the memo. *)
Lemma resolve_memoizes P pr res pr' :
  resolve P pr = Returns res pr' →
  _memoized_resolved pr'.1 !! P = Some res ∧
  ∀ Q x, _memoized_resolved pr.1 !! Q = Some x → _memoized_resolved pr'.1 !! Q = Some x.
Proof.
  destruct pr as [r parser]. unfold resolve.
  destruct (_memoized_resolved r !! P) as [x|] eqn:Hm.
  - intros [= <- <-]. done.
  - destruct (try_producers _ _ _) as [found parser1|]; [|done].
    unfold resolved_setdefault. rewrite Hm. intros [= <- <-]. simpl. split.
    + apply lookup_insert_eq.
    + intros Q x HQ. rewrite lookup_insert_ne; [done|]. intros ->. congruence.
Qed.

(** What a provider has memoized for a parsed section name, absent
    included, and what it would give to the broker. *)
Definition memoized_resolved pr P : option ResolvedResult :=
  match _memoized_resolved pr.1 !! P with
  | Some (Some resolved) => Some resolved
  | _ => None
  end.

Lemma resolve_memoized_resolved P pr res :
  is_Some (_memoized_resolved pr.1 !! P) →
  resolve P pr = Returns res pr ↔ memoized_resolved pr P = res.
Proof.
  intros [x Hx]. destruct pr as [r parser]. simpl in Hx. unfold memoized_resolved.
  rewrite (resolve_memoized _ _ _ _ Hx). simpl. rewrite Hx. split.
  - intros [= <-]. by destruct x.
  - intros <-. by destruct x.
Qed.

Lemma resolve_names_spec names output pr output' pr' :
  resolve_names names output pr = Returns output' pr' →
  (∀ Q x, _memoized_resolved pr.1 !! Q = Some x → _memoized_resolved pr'.1 !! Q = Some x) ∧
  (∀ P, P ∈ names → is_Some (_memoized_resolved pr'.1 !! P)) ∧
  (∀ P, output' !! P =
          if decide (P ∈ names)
          then match memoized_resolved pr' P with
               | Some resolved => Some resolved
               | None => output !! P
               end
          else output !! P).
Proof.
  revert output pr. induction names as [|Q rest IH]; intros output pr Hrun.
  - simpl in Hrun. unfold ret in Hrun. simplify_eq. split; [done|].
    split; [by intros P ?%elem_of_nil|]. intros P.
    rewrite decide_False; [done|]. apply not_elem_of_nil.
  - simpl in Hrun. unfold bind in Hrun.
    destruct (resolve Q pr) as [resQ pr1|] eqn:HQ; [|done].
    apply resolve_memoizes in HQ as [HmQ Hkeep1].
    apply IH in Hrun as (Hkeep & Hall & Hout).
    pose proof (Hkeep _ _ HmQ) as HmQ'.
    split; [auto|]. split.
    { intros P [->|HP]%elem_of_cons; [eauto|auto]. }
    intros P. rewrite Hout. clear Hout.
    destruct (decide (P = Q)) as [->|Hne].
    + rewrite (decide_True (P := Q ∈ Q :: rest)) by left.
      unfold memoized_resolved. rewrite HmQ'.
      destruct resQ as [resolved|]; case_decide; try done; by rewrite lookup_insert_eq.
    + assert (Hsame : match resQ with
                      | Some resolved => <[Q:=resolved]> output
                      | None => output
                      end !! P = output !! P).
      { destruct resQ; [by rewrite lookup_insert_ne|done]. }
      rewrite Hsame. destruct (decide (P ∈ rest)) as [Hin|Hin].
      * by rewrite decide_True by (by right).
      * rewrite decide_False; [done|]. intros [?|?]%elem_of_cons; done.
Qed.

(** The entry that providers, taken in order, leave for a parsed section
    name: that of the last one whose resolution is not absent. *)
Definition last_writer P (providers : list (@ParsedSectionsResolver Content * SectionsParser))
    (acc : option ResolvedResult) : option ResolvedResult :=
  foldl (λ acc pr, match memoized_resolved pr P with
                   | Some resolved => Some resolved
                   | None => acc
                   end) acc providers.

Lemma last_writer_snoc P providers pr acc :
  last_writer P (providers ++ [pr]) acc =
    match memoized_resolved pr P with
    | Some resolved => Some resolved
    | None => last_writer P providers acc
    end.
Proof. unfold last_writer. by rewrite foldl_app. Qed.

Lemma last_writer_Some P providers resolved :
  last_writer P providers None = Some resolved ↔
  ∃ i pr, providers !! i = Some pr ∧ memoized_resolved pr P = Some resolved ∧
    ∀ j pr', (i < j)%nat → providers !! j = Some pr' → memoized_resolved pr' P = None.
Proof.
  induction providers as [|pr0 providers IH] using rev_ind.
  - split; [done|]. by intros (i & pr & ? & _).
  - rewrite last_writer_snoc. destruct (memoized_resolved pr0 P) as [r0|] eqn:H0.
    + split.
      * intros [= ->]. exists (length providers), pr0.
        split; [by rewrite lookup_app_r, Nat.sub_diag by lia|]. split; [done|].
        intros j pr' Hj Hl. apply lookup_lt_Some in Hl.
        rewrite length_app in Hl. simpl in Hl. lia.
      * intros (i & pr & Hi & Hr & Hlast).
        destruct (decide (i = length providers)) as [->|Hne].
        -- rewrite lookup_app_r, Nat.sub_diag in Hi by lia. simpl in Hi. congruence.
        -- pose proof (lookup_lt_Some _ _ _ Hi) as Hlt.
           rewrite length_app in Hlt. simpl in Hlt.
           assert (Hnone : memoized_resolved pr0 P = None).
           { apply (Hlast (length providers)); [lia|].
             by rewrite lookup_app_r, Nat.sub_diag by lia. }
           congruence.
    + rewrite IH. split.
      * intros (i & pr & Hi & Hr & Hlast). exists i, pr.
        split; [by apply lookup_app_l_Some|]. split; [done|].
        intros j pr' Hj Hl. destruct (decide (j < length providers)%nat) as [Hlt|Hge].
        -- rewrite lookup_app_l in Hl by done. eauto.
        -- rewrite lookup_app_r in Hl by lia.
           destruct (j - length providers)%nat; simpl in Hl; [congruence|done].
      * intros (i & pr & Hi & Hr & Hlast).
        assert (Hlt : (i < length providers)%nat).
        { pose proof (lookup_lt_Some _ _ _ Hi) as Hlt.
          rewrite length_app in Hlt. simpl in Hlt.
          destruct (decide (i = length providers)) as [->|Hne]; [|lia].
          rewrite lookup_app_r, Nat.sub_diag in Hi by lia. simpl in Hi. congruence. }
        rewrite lookup_app_l in Hi by done. exists i, pr. split; [done|]. split; [done|].
        intros j pr' Hj Hl. apply (Hlast j); [done|]. by apply lookup_app_l_Some.
Qed.

(** What the pass over the names makes of one provider. *)
Definition served names pr pr' : Prop :=
  ∃ output output', resolve_names names output pr = Returns output' pr'.

Lemma resolve_providers_spec names done_ todo output output' final :
  resolve_providers names done_ todo output = Returns output' final →
  ∃ todo', final = done_ ++ todo' ∧ Forall2 (served names) todo todo' ∧
    ∀ P, output' !! P =
           if decide (P ∈ names) then
             match last_writer P todo' None with
             | Some resolved => Some resolved
             | None => output !! P
             end
           else output !! P.
Proof.
  revert done_ output. induction todo as [|pr rest IH]; intros done_ output Hrun.
  - simpl in Hrun. simplify_eq. exists []. rewrite app_nil_r. split; [done|].
    split; [constructor|]. intros P. by case_decide.
  - simpl in Hrun.
    destruct (resolve_names names output pr) as [output1 pr1|] eqn:Hpr; [|done].
    apply IH in Hrun as (rest' & -> & Hserved & Hout).
    exists (pr1 :: rest'). split; [by rewrite <-app_assoc|].
    split; [constructor; [by exists output, output1|done]|].
    apply resolve_names_spec in Hpr as (_ & _ & Hout1).
    intros P. rewrite Hout, Hout1. clear Hout Hout1.
    case_decide; [|done].
    change (pr1 :: rest') with ([pr1] ++ rest').
    unfold last_writer. rewrite foldl_app. simpl.
    fold (last_writer P rest' None).
    destruct (memoized_resolved pr1 P) as [r1|]; [|done].
    fold (last_writer P rest' (Some r1)).
    clear. induction rest' as [|pr' rest' IH] using rev_ind; [done|].
    rewrite !last_writer_snoc. by destruct (memoized_resolved pr' P).
Qed.

(** With debug mode off the resolver and the broker return. *)
Lemma parse_superseders_returns sups self :
  debug_enabled = false → ∃ self', parse_superseders sups self = Returns tt self'.
Proof.
  intros Hd. revert self. induction sups as [|p sups IH]; intros self; [by eexists|].
  destruct (parse_returns self (name p) (parse_function p) Hd) as ([pr0|] & self1 & Hp).
  - rewrite (parse_superseders_parsed _ _ _ _ _ Hp). apply IH.
  - rewrite (parse_superseders_absent _ _ _ _ Hp). apply IH.
Qed.

Lemma try_producers_returns r producers self :
  debug_enabled = false → ∃ found self', try_producers r producers self = Returns found self'.
Proof.
  intros Hd. revert self. induction producers as [|p rest IH]; intros self; [by eexists _, _|].
  destruct (parse_superseders_returns (default [] (_superseders r !! name p)) self Hd)
    as (self1 & Hs).
  destruct (parse_returns self1 (name p) (parse_function p) Hd) as ([pr0|] & self2 & Hp).
  - rewrite (try_producers_found _ _ _ _ _ _ _ Hs Hp). eauto.
  - rewrite (try_producers_next _ _ _ _ _ _ Hs Hp). apply IH.
Qed.

Lemma resolve_returns P pr :
  debug_enabled = false → ∃ res pr', resolve P pr = Returns res pr'.
Proof.
  intros Hd. destruct pr as [r parser].
  destruct (_memoized_resolved r !! P) as [x|] eqn:Hm.
  - rewrite (resolve_memoized _ _ _ _ Hm). eauto.
  - destruct (try_producers_returns r (default [] (_producers r !! P)) parser Hd)
      as (found & parser' & Ht).
    rewrite (resolve_fresh _ _ _ _ _ Hm Ht). eauto.
Qed.

Lemma resolve_names_returns names output pr :
  debug_enabled = false → ∃ output' pr', resolve_names names output pr = Returns output' pr'.
Proof.
  intros Hd. revert output pr. induction names as [|Q rest IH]; intros output pr.
  - by eexists _, _.
  - destruct (resolve_returns Q pr Hd) as (res & pr1 & HQ).
    simpl. unfold bind. rewrite HQ. apply IH.
Qed.

Lemma resolve_providers_returns names done_ todo output :
  debug_enabled = false →
  ∃ output' final, resolve_providers names done_ todo output = Returns output' final.
Proof.
  intros Hd. revert done_ output. induction todo as [|pr rest IH]; intros done_ output.
  - by eexists _, _.
  - destruct (resolve_names_returns names output pr Hd) as (output1 & pr1 & Hpr).
    simpl. rewrite Hpr. apply IH.
Qed.

(** C6: with debug mode off [ParsedSectionsBroker.resolve] returns; and
    whenever it returns, every provider has served the names, and the
    mapping has the entry [resolved] for [P] exactly if [P] is among the
    requested names and [resolved] is what some provider resolves [P] to
    while every provider after it in the sequence resolves [P] to absent. *)
Theorem broker_resolve_last_writer_wins names (providers : list (_ * _)) :
  (debug_enabled = false →
   ∃ output providers', ParsedSectionsBroker_resolve names providers =
                        Returns output providers') ∧
  ∀ output providers',
    ParsedSectionsBroker_resolve names providers = Returns output providers' →
    Forall2 (served names) providers providers' ∧
    ∀ P resolved,
      output !! P = Some resolved ↔
      P ∈ names ∧
      ∃ i pr, providers' !! i = Some pr ∧
        resolve P pr = Returns (Some resolved) pr ∧
        ∀ j pr', (i < j)%nat → providers' !! j = Some pr' →
                 resolve P pr' = Returns None pr'.
Proof.
  split; [apply resolve_providers_returns|].
  intros output providers' Hrun.
  apply resolve_providers_spec in Hrun as (todo' & -> & Hserved & Hout).
  simpl. split; [done|]. intros P resolved. rewrite Hout, lookup_empty.
  assert (Hmemo : P ∈ names → ∀ i pr, todo' !! i = Some pr →
                  is_Some (_memoized_resolved pr.1 !! P)).
  { intros HP i pr Hi.
    destruct (Forall2_lookup_r _ _ _ _ _ Hserved Hi) as (pr0 & _ & out & out' & Hrun).
    apply resolve_names_spec in Hrun as (_ & Hall & _). auto. }
  case_decide as HP.
  - specialize (Hmemo HP).
    assert (Hlw : match last_writer P todo' None with
                  | Some r0 => Some r0 | None => None end = last_writer P todo' None).
    { by destruct (last_writer P todo' None). }
    rewrite Hlw, last_writer_Some. split.
    + intros (i & pr & Hi & Hr & Hlast). split; [done|]. exists i, pr.
      split; [done|]. split; [apply resolve_memoized_resolved; eauto|].
      intros j pr' Hj Hl. apply resolve_memoized_resolved; eauto.
    + intros (_ & i & pr & Hi & Hr & Hlast). exists i, pr. split; [done|].
      split; [apply resolve_memoized_resolved in Hr; eauto|].
      intros j pr' Hj Hl. apply resolve_memoized_resolved; eauto.
  - split; [done|]. by intros [? _].
Qed.

(** ** Cache info aggregation *)

Lemma py_min_le x rest : py_min x rest ≤ x ∧ ∀ y, y ∈ rest → py_min x rest ≤ y.
Proof.
  unfold py_min. revert x. induction rest as [|z rest IH]; intros x; simpl.
  - split; [lia|]. by intros y ?%elem_of_nil.
  - destruct (IH (if z <? x then z else x)) as [H1 H2].
    destruct (Z.ltb_spec z x); (split; [lia|]);
      intros y [->|Hy]%elem_of_cons; try lia; by apply H2.
Qed.

Lemma py_min_elem x rest : py_min x rest ∈ x :: rest.
Proof.
  unfold py_min. revert x. induction rest as [|z rest IH]; intros x; simpl.
  - by left.
  - specialize (IH (if z <? x then z else x)).
    apply elem_of_cons in IH as [->|IH]; [|by do 2 right].
    destruct (z <? x); [right|]; by left.
Qed.

Lemma py_max_ge x rest : x ≤ py_max x rest ∧ ∀ y, y ∈ rest → y ≤ py_max x rest.
Proof.
  unfold py_max. revert x. induction rest as [|z rest IH]; intros x; simpl.
  - split; [lia|]. by intros y ?%elem_of_nil.
  - destruct (IH (if x <? z then z else x)) as [H1 H2].
    destruct (Z.ltb_spec x z); (split; [lia|]);
      intros y [->|Hy]%elem_of_cons; try lia; by apply H2.
Qed.

Lemma py_max_elem x rest : py_max x rest ∈ x :: rest.
Proof.
  unfold py_max. revert x. induction rest as [|z rest IH]; intros x; simpl.
  - by left.
  - specialize (IH (if x <? z then z else x)).
    apply elem_of_cons in IH as [->|IH]; [|by do 2 right].
    destruct (x <? z); [right|]; by left.
Qed.

(** [m] is the least, respectively the greatest, of the numbers [xs]. *)
Definition least (m : Z) (xs : list Z) : Prop := m ∈ xs ∧ ∀ x, x ∈ xs → m ≤ x.
Definition greatest (m : Z) (xs : list Z) : Prop := m ∈ xs ∧ ∀ x, x ∈ xs → x ≤ m.

(** C5: [get_cache_info] returns [None] exactly for the empty sequence;
    for every other sequence it returns the least of the timestamps with
    the greatest of the intervals; (100, 60) and (80, 90) give (80, 90). *)
Theorem get_cache_info_min_max (cache_infos : list _CacheInfo) :
  match get_cache_info cache_infos with
  | None => cache_infos = []
  | Some (ats, intervals) =>
      cache_infos ≠ [] ∧ least ats cache_infos.*1 ∧ greatest intervals cache_infos.*2
  end ∧
  get_cache_info [(100, 60); (80, 90)] = Some (80, 90).
Proof.
  split; [|reflexivity].
  destruct cache_infos as [|[ats intervals] rest]; [done|].
  change (((ats, intervals) :: rest).*1) with (ats :: rest.*1).
  change (((ats, intervals) :: rest).*2) with (intervals :: rest.*2).
  destruct (py_min_le ats rest.*1) as [Hmin1 Hmin2].
  destruct (py_max_ge intervals rest.*2) as [Hmax1 Hmax2].
  simpl. split; [done|]. split; split.
  - apply py_min_elem.
  - intros x [->|Hx]%elem_of_cons; auto.
  - apply py_max_elem.
  - intros x [->|Hx]%elem_of_cons; auto.
Qed.

(** ** Piggybacked sections *)

(** C8: the calls [store_piggybacked_sections] adds to the piggyback store
    are, in the order of the mapping, one call with the hostname and the
    piggybacked raw data of each entry whose host key is not of source
    type [MANAGEMENT], and none for an entry whose host key is. *)
Theorem store_piggybacked_sections_calls
    (collected_host_sections : list (HostKey * HostSections)) (store : list StoreCall) :
  store_piggybacked_sections collected_host_sections store =
    store ++
    ((λ entry, (hostname entry.1, piggybacked_raw_data entry.2)) <$>
       filter (λ entry, source_type entry.1 ≠ MANAGEMENT) collected_host_sections).
Proof.
  revert store. induction collected_host_sections as [|[host_key host_sections] rest IH];
    intros store; simpl.
  - by rewrite app_nil_r.
  - rewrite filter_cons. simpl. destruct (decide (source_type host_key = MANAGEMENT)) as [Hm|Hm].
    + rewrite decide_False by (intros H; by apply H). apply IH.
    + rewrite decide_True by done. rewrite IH. simpl. by rewrite <-app_assoc.
Qed.

(** ** Providers *)

Lemma lookup_plugins_spec (section_plugins : gmap SectionName (@SectionPlugin Content))
    (section_names : list SectionName) :
  match lookup_plugins section_plugins section_names with
  | Return plugins =>
      Forall2 (λ section_name plugin, section_plugins !! section_name = Some plugin)
              section_names plugins
  | Raise e =>
      ∃ section_name, section_name ∈ section_names ∧
        section_plugins !! section_name = None ∧ e = KeyError section_name
  end.
Proof.
  induction section_names as [|s rest IH]; simpl; [constructor|].
  destruct (section_plugins !! s) as [plugin|] eqn:Hs.
  - destruct (lookup_plugins section_plugins rest) as [plugins|e].
    + by constructor.
    + destruct IH as (s' & Hin & Hnone & ->). exists s'. split; [by right|done].
  - exists s. split; [by left|done].
Qed.

(** C10: [make_providers] looks up every raw section name of every host
    in the registry.  It returns, with one provider per host key, exactly
    when all of them are registered; otherwise it raises the [KeyError] of
    a raw section name that is present for a host and not registered. *)
Theorem make_providers_key_error (host_sections : list (HostKey * HostSections))
    (section_plugins : gmap SectionName (@SectionPlugin Content)) :
  match make_providers host_sections section_plugins with
  | Return providers =>
      providers.*1 = host_sections.*1 ∧
      ∀ host_key hs section_name,
        (host_key, hs) ∈ host_sections → section_name ∈ dict_keys (sections hs) →
        is_Some (section_plugins !! section_name)
  | Raise e =>
      ∃ host_key hs section_name,
        (host_key, hs) ∈ host_sections ∧ section_name ∈ dict_keys (sections hs) ∧
        section_plugins !! section_name = None ∧ e = KeyError section_name
  end.
Proof.
  induction host_sections as [|[host_key hs] rest IH]; simpl.
  - split; [done|]. by intros ??? ?%elem_of_nil.
  - pose proof (lookup_plugins_spec section_plugins (dict_keys (sections hs))) as Hl.
    destruct (lookup_plugins section_plugins (dict_keys (sections hs))) as [plugins|e].
    + destruct (make_providers rest section_plugins) as [providers|e].
      * destruct IH as [Hkeys Hreg]. split; [by rewrite !fmap_cons, Hkeys|].
        intros hk hs' s [[= -> ->]|Hin]%elem_of_cons Hs; [|by eapply Hreg].
        apply list_elem_of_lookup in Hs as [i Hi].
        destruct (Forall2_lookup_l _ _ _ _ _ Hl Hi) as (plugin & _ & Hp). eauto.
      * destruct IH as (hk & hs' & s & Hin & Hs & Hnone & ->).
        exists hk, hs', s. split; [by right|done].
    + destruct Hl as (s & Hs & Hnone & ->). exists host_key, hs, s. split; [by left|done].
Qed.

End properties.

(** * The properties on concrete hosts *)

(** Parsed contents are texts here, and the crash report is its own
    summary line. *)
Definition crash_dump (section_name : SectionName) (raw_data : RawData)
    (host_name : HostName) : string :=
  String.append "parsing failed: " (String.append section_name (String.append "@" host_name)).

Definition returning (content : string) : @ParseFunction string :=
  λ _, Return (Some content).

Definition raising : @ParseFunction string :=
  λ _, Raise (Exception "malformed").

Definition plugin (name parsed_section_name : string) (parse_function : @ParseFunction string)
    (supersedes : list SectionName) : @SectionPlugin string :=
  {| name := name;
     parsed_section_name := parsed_section_name;
     parse_function := parse_function;
     supersedes := list_to_set supersedes |}.

Definition host (raw_sections : list (SectionName * RawData)) : HostSections :=
  {| sections := raw_sections;
     hs_cache_info := {[ "b" := (100, 60) ]};
     piggybacked_raw_data := [] |}.

(** Two plugins for one parsed section, the second superseding the first. *)
Definition section_a := plugin "a" "P" (returning "content of a") [].
Definition section_b := plugin "b" "P" (returning "content of b") ["a"].
Definition host_ab := host [("a", [["1"]]); ("b", [["2"]])].
Definition host_a := host [("a", [["1"]])].


(** Two unrelated plugins, the first with a parse function that raises. *)
Definition section_bad := plugin "bad" "Pbad" raising [].
Definition section_good := plugin "good" "Pgood" (returning "content of good") [].
Definition host_bad_good := host [("bad", [["?"]]); ("good", [["4"]])].

(** The providers of two nodes of a cluster. *)
Definition two_nodes : list (@ParsedSectionsResolver string * @SectionsParser string) :=
  [(ParsedSectionsResolver_init [section_a; section_b], SectionsParser_init host_a "node1");
   (ParsedSectionsResolver_init [section_a; section_b], SectionsParser_init host_ab "node2")].

(** C1, counterexample: with [section_b] registered before [section_a],
    resolving "P" yields the content of b and never touches "a": the
    direct [parse] of "a" that follows invokes the parse function and
    returns the content of a, not absent. *)
Lemma superseded_parsed_when_registered_last :
  ∃ resolver' parser' parser'',
    resolve false crash_dump "P"
      (ParsedSectionsResolver_init [section_b; section_a], SectionsParser_init host_ab "host")
    = Returns (Some {| section := section_b; parsed_data := "content of b";
                       rr_cache_info := Some (100, 60) |})
              (resolver', parser') ∧
    parse false crash_dump "a" (parse_function section_a) parser'
    = Returns (Some {| data := "content of a"; cache_info := None |}) parser'' ∧
    parse_calls parser'' = ["b"; "a"].
Proof.
  eexists _, _, _. split; [vm_compute; reflexivity|]. split; vm_compute; reflexivity.
Qed.

(** C1, as amended, for [section_a] registered before [section_b]. *)
Lemma superseder_wins_witness :
  ∃ resolver' parser',
    resolve false crash_dump "P"
      (ParsedSectionsResolver_init [section_a; section_b], SectionsParser_init host_ab "host")
    = Returns (Some {| section := section_b; parsed_data := "content of b";
                       rr_cache_info := hs_cache_info host_ab !! "b" |})
              (resolver', parser') ∧
    ([section_a; section_b] = [section_a; section_b] →
     ∀ f, parse false crash_dump "a" f parser' = Returns None parser').
Proof.
  apply (superseder_wins false crash_dump section_a section_b "P" host_ab "host"
           [["1"]] [["2"]] "content of b" [section_a; section_b]);
    try reflexivity; try compute_done.
  by left.
Defined.



(** C3, counterexample: with debug mode off, a [parse] of "a" returns the
    content of a; resolving "P" then parses the superseding "b" and
    disables "a"; the next [parse] of "a" returns absent. *)
Lemma parsed_then_disabled_by_resolve :
  ∃ parser1 resolver' parser2 parser3,
    parse false crash_dump "a" (parse_function section_a) (SectionsParser_init host_ab "host")
    = Returns (Some {| data := "content of a"; cache_info := None |}) parser1 ∧
    resolve false crash_dump "P" (ParsedSectionsResolver_init [section_a; section_b], parser1)
    = Returns (Some {| section := section_b; parsed_data := "content of b";
                       rr_cache_info := Some (100, 60) |}) (resolver', parser2) ∧
    parse false crash_dump "a" (parse_function section_a) parser2 = Returns None parser3.
Proof.
  eexists _, _, _, _. split; [vm_compute; reflexivity|]. split; vm_compute; reflexivity.
Qed.

(** C3, the other way it fails: in debug mode a parse function that
    raises is invoked by each of two calls of [parse]; nothing is memoized
    between them. *)
Lemma raising_parse_function_invoked_twice :
  ∃ e parser' parser'',
    parse true crash_dump "bad" raising (SectionsParser_init host_bad_good "host")
    = Raises e parser' ∧
    parse true crash_dump "bad" raising parser' = Raises e parser'' ∧
    parse_calls parser'' = ["bad"; "bad"].
Proof.
  eexists _, _, _. split; [vm_compute; reflexivity|]. split; vm_compute; reflexivity.
Qed.

(** C3, as amended, for a section whose parse function raises, parsed
    after a sequence of calls and again after one that disables other
    sections. *)
Lemma parse_memoized_at_most_once_witness :
  ∃ rs1 self r self1 rs2 self2,
    run_calls false crash_dump
      [CallParse "good" (returning "content of good"); CallDisable ["good"]]
      (SectionsParser_init host_bad_good "host") = Returns rs1 self ∧
    NoDup (parse_calls self) ∧
    parse false crash_dump "bad" raising self = Returns r self1 ∧
    run_calls false crash_dump
      [CallParse "good" (returning "content of good"); CallDisable ["good"; "other"];
       CallParse "bad" (returning "other")] self1 = Returns rs2 self2 ∧
    parse false crash_dump "bad" (returning "other") self2 = Returns r self2 ∧
    NoDup (parse_calls self2).
Proof.
  apply (parse_memoized_at_most_once false crash_dump host_bad_good "host").
  - reflexivity.
  - intros l Hl. repeat (apply elem_of_cons in Hl as [Hl|Hl]; [simplify_eq|]).
    + compute_done.
    + by apply elem_of_nil in Hl.
Defined.

(** C4, for a new parser and a new resolver of the two plugins. *)
Lemma parse_fault_isolated_witness :
  ∃ self',
    parse false crash_dump "bad" raising (SectionsParser_init host_bad_good "host")
    = Returns None self' ∧
    parsing_errors self' = [] ++ [crash_dump "bad" [["?"]] "host"] ∧
    _memoized_results self' !! "bad" = Some None ∧
    ∃ resolver' self'',
      resolve false crash_dump "Pgood"
        (ParsedSectionsResolver_init [section_bad; section_good], self')
      = Returns (Some {| section := section_good; parsed_data := "content of good";
                         rr_cache_info := hs_cache_info host_bad_good !! "good" |})
                (resolver', self'') ∧
      parsing_errors self'' = parsing_errors self'.
Proof.
  apply (parse_fault_isolated false crash_dump
           (SectionsParser_init host_bad_good "host")
           (ParsedSectionsResolver_init [section_bad; section_good])
           "bad" raising [["?"]] (Exception "malformed") section_good "Pgood" [["4"]]
           "content of good");
    try reflexivity; compute_done.
Defined.

(** C7, for [section_b] registered first, on a host without raw data for
    "b". *)
Lemma fallback_on_absent_superseder_witness :
  ∃ resolver' parser',
    resolve false crash_dump "P"
      (ParsedSectionsResolver_init [section_b; section_a], SectionsParser_init host_a "host")
    = Returns (Some {| section := section_a; parsed_data := "content of a";
                       rr_cache_info := hs_cache_info host_a !! name section_a |})
              (resolver', parser').
Proof.
  apply (fallback_on_absent_superseder false crash_dump section_a section_b "P" host_a
           "host" [["1"]] "content of a" [section_b; section_a]);
    try reflexivity; try compute_done.
  by right.
Defined.

(** C9, for a section that was parsed successfully before it is disabled,
    with a further call between the [disable] and the [parse]. *)
Lemma disable_overwrites_memoized_witness :
  ∃ self rs self',
    parse false crash_dump "a" (returning "content of a") (SectionsParser_init host_ab "host")
    = Returns (Some {| data := "content of a"; cache_info := None |}) self ∧
    run_calls false crash_dump [CallParse "b" (returning "content of b")]
      (disable ["a"] self) = Returns rs self' ∧
    parse false crash_dump "a" (returning "content of a") self' = Returns None self'.
Proof.
  eexists _, _, _. split; [vm_compute; reflexivity|].
  assert (H : ∀ A B : Prop, A → (A → B) → A ∧ B) by tauto. apply H; clear H.
  - vm_compute. reflexivity.
  - apply (disable_overwrites_memoized false crash_dump _ ["a"]). compute_done.
Defined.

(** C6, for two hosts that both resolve "P", the first to the content of a
    and the second to the content of b: the entry of the second is kept,
    and "Q", which no provider resolves, has no entry. *)
Lemma broker_resolve_last_writer_wins_witness :
  ∃ output providers',
    ParsedSectionsBroker_resolve false crash_dump ["P"; "Q"] two_nodes
    = Returns output providers' ∧
    output !! "P" = Some {| section := section_b; parsed_data := "content of b";
                            rr_cache_info := Some (100, 60) |} ∧
    output !! "Q" = None.
Proof.
  eexists _, _.
  assert (H : ∀ A B : Prop, A → (A → B) → A ∧ B) by tauto. apply H; clear H.
  - vm_compute. reflexivity.
  - intros Hrun.
    destruct (broker_resolve_last_writer_wins false crash_dump ["P"; "Q"] two_nodes)
      as [_ Hspec].
    destruct (Hspec _ _ Hrun) as [_ Hout]. split.
    + apply Hout. split; [compute_done|].
      eexists 1%nat, _. split; [reflexivity|]. split; [vm_compute; reflexivity|].
      intros j pr' Hj Hl. apply lookup_lt_Some in Hl. simpl in Hl. lia.
    + destruct (_ !! "Q") as [resolved|] eqn:HQ; [|done].
      apply Hout in HQ as [_ (i & pr & Hi & Hr & _)].
      destruct i as [|[|i]]; simpl in Hi; simplify_eq; vm_compute in Hr; done.
Defined.
(** * Further properties of the parser and the resolver *)

Section more_properties.

Context {Content : Type}.
Variable debug_enabled : bool.
Variable create_section_crash_dump : SectionName → RawData → HostName → string.

Local Abbreviation parse := (parse debug_enabled create_section_crash_dump).
Local Abbreviation run_calls := (run_calls debug_enabled create_section_crash_dump).
Local Abbreviation parse_superseders :=
  (parse_superseders debug_enabled create_section_crash_dump).
Local Abbreviation try_producers := (try_producers debug_enabled create_section_crash_dump).
Local Abbreviation resolve := (resolve debug_enabled create_section_crash_dump).
Local Abbreviation resolve_names := (resolve_names debug_enabled create_section_crash_dump).
Local Abbreviation resolve_providers :=
  (resolve_providers debug_enabled create_section_crash_dump).
Local Abbreviation ParsedSectionsBroker_resolve :=
  (ParsedSectionsBroker_resolve debug_enabled create_section_crash_dump).

Implicit Types (self parser : @SectionsParser Content) (f g : @ParseFunction Content).
Implicit Types (s section_name : SectionName) (l : list SectionName).
Implicit Types (r resolver : @ParsedSectionsResolver Content).
Implicit Types (p producer superseder : @SectionPlugin Content).
Implicit Types (pr provider : @ParsedSectionsResolver Content * @SectionsParser Content).
Implicit Types (output : gmap ParsedSectionName (@ResolvedResult Content)).

(** ** What every step of a parser keeps

    A property of parsers that [parse] keeps whenever it returns, and that
    [disable] keeps, holds after every loop built from the two. *)

Definition kept_by_parser (I : @SectionsParser Content → Prop) : Prop :=
  (∀ self s f res self', I self → parse s f self = Returns res self' → I self') ∧
  (∀ self l, I self → I (disable l self)).

Lemma kept_run_calls I calls self rs self' :
  kept_by_parser I → I self → run_calls calls self = Returns rs self' → I self'.
Proof.
  intros [Hparse Hdisable]. revert self rs.
  induction calls as [|[s f|l] calls IH]; intros self rs HI Hrun.
  - simpl in Hrun. unfold ret in Hrun. by simplify_eq.
  - simpl in Hrun. unfold bind at 1 in Hrun.
    destruct (parse s f self) as [res self1|] eqn:Hp; [|done].
    unfold bind, ret in Hrun.
    destruct (run_calls calls self1) as [rs1 self2|] eqn:Hr; [|done].
    simplify_eq. eapply IH; [|done]. by eapply Hparse.
  - simpl in Hrun. unfold bind in Hrun. eapply IH; [|done]. by apply Hdisable.
Qed.

Lemma kept_parse_superseders I sups self self' :
  kept_by_parser I → I self → parse_superseders sups self = Returns tt self' → I self'.
Proof.
  intros [Hparse Hdisable]. revert self.
  induction sups as [|p sups IH]; intros self HI Hrun.
  - simpl in Hrun. unfold ret in Hrun. by simplify_eq.
  - simpl in Hrun. unfold bind at 1 in Hrun.
    destruct (parse (name p) (parse_function p) self) as [res self1|] eqn:Hp; [|done].
    unfold bind in Hrun. pose proof (Hparse _ _ _ _ _ HI Hp) as HI1.
    destruct res; (eapply IH; [|done]); auto.
Qed.

(** The producer loop: the property holds afterwards, and a producer that
    is found was parsed in a state that has the property. *)
Lemma kept_try_producers I r producers self found self' :
  kept_by_parser I → I self →
  try_producers r producers self = Returns found self' →
  I self' ∧
  ∀ resolved, found = Some resolved →
    section resolved ∈ producers ∧
    ∃ pres,
      _memoized_results self' !! name (section resolved) = Some (Some pres) ∧
      parsed_data resolved = data pres ∧ rr_cache_info resolved = cache_info pres.
Proof.
  intros HK. revert self. induction producers as [|p rest IH]; intros self HI Hrun.
  - simpl in Hrun. unfold ret in Hrun. simplify_eq. split; [done|]. by intros ? [=].
  - simpl in Hrun. unfold bind at 1 in Hrun.
    destruct (parse_superseders _ self) as [[] self1|] eqn:Hs; [|done].
    pose proof (kept_parse_superseders _ _ _ _ HK HI Hs) as HI1.
    unfold bind in Hrun.
    destruct (parse (name p) (parse_function p) self1) as [res self2|] eqn:Hp; [|done].
    pose proof (proj1 HK _ _ _ _ _ HI1 Hp) as HI2.
    destruct res as [pres|].
    + unfold ret in Hrun. simplify_eq. split; [done|]. intros resolved [= <-]. simpl.
      split; [by left|]. exists pres. split; [by eapply parse_memoizes|done].
    + destruct (IH _ HI2 Hrun) as [HI' Hfound]. split; [done|].
      intros resolved Hr. destruct (Hfound _ Hr) as [Hin Hrest]. split; [by right|done].
Qed.

Lemma kept_resolve I P r parser res r' parser' :
  kept_by_parser I → I parser →
  resolve P (r, parser) = Returns res (r', parser') → I parser'.
Proof.
  intros HK HI. unfold resolve.
  destruct (_memoized_resolved r !! P) as [x|]; [by intros [= <- <- <-]|].
  destruct (try_producers _ _ _) as [found parser1|] eqn:Ht; [|done].
  destruct (resolved_setdefault P found r) as [res0 r0].
  intros [= <- <- <-]. by eapply kept_try_producers.
Qed.

Lemma kept_resolve_names I names output pr output' pr' :
  kept_by_parser I → I pr.2 →
  resolve_names names output pr = Returns output' pr' → I pr'.2.
Proof.
  intros HK. revert output pr. induction names as [|Q rest IH]; intros output pr HI Hrun.
  - simpl in Hrun. unfold ret in Hrun. by simplify_eq.
  - simpl in Hrun. unfold bind in Hrun.
    destruct (resolve Q pr) as [resQ pr1|] eqn:HQ; [|done].
    eapply IH; [|done]. destruct pr as [r parser], pr1 as [r1 parser1].
    by eapply kept_resolve.
Qed.

(** ** Three properties that every step keeps *)

(** The raw sections and the host name are those the parser was created
    with, and the parsing errors recorded so far are still there. *)
Definition frame_of (self0 : @SectionsParser Content) self : Prop :=
  _host_sections self = _host_sections self0 ∧
  _host_name self = _host_name self0 ∧
  parsing_errors self0 `prefix_of` parsing_errors self.

Lemma frame_of_kept self0 : kept_by_parser (frame_of self0).
Proof.
  split.
  - intros self s f res self' (Hhs & Hhn & Herr) Hp.
    apply parse_Returns_inv in Hp as [[_ ->]|(_ & _ & Hhs' & Hhn' & Hcases)]; [done|].
    split; [congruence|]. split; [congruence|]. unfold parsing_errors in *.
    destruct Hcases as [(_ & _ & _ & ->)|(raw & _ & _ & [(? & _ & _ & ->)|(? & _ & _ & _ & ->)])];
      [done|done|]. by apply prefix_app_r.
  - intros self l (Hhs & Hhn & Herr). unfold frame_of, parsing_errors.
    by rewrite disable_host_sections, disable_host_name, disable_parsing_errors.
Qed.

(** Only a section with raw data is memoized as parsed, and with the cache
    info the host has for it. *)
Definition memo_sound self : Prop :=
  ∀ s pres, _memoized_results self !! s = Some (Some pres) →
    is_Some (dict_get s (sections (_host_sections self))) ∧
    cache_info pres = hs_cache_info (_host_sections self) !! s.

Lemma memo_sound_init hs hn : memo_sound (SectionsParser_init hs hn).
Proof. intros s pres Hm. simpl in Hm. by rewrite lookup_empty in Hm. Qed.

Lemma memo_sound_kept : kept_by_parser memo_sound.
Proof.
  split.
  - intros self s f res self' Hsound Hp.
    apply parse_Returns_inv in Hp as [[_ ->]|(Hm & Hm' & Hhs' & _ & Hcases)]; [done|].
    intros s' pres. rewrite Hm', Hhs'. destruct (decide (s = s')) as [<-|Hne].
    + rewrite lookup_insert_eq. intros [= ->].
      destruct Hcases as [(_ & [=] & _)|(raw & Hraw & _ & [(parsed & _ & Hres & _)|(? & _ & _ & [=] & _)])].
      rewrite Hraw. split; [eauto|]. destruct parsed; simpl in Hres; by simplify_eq.
    + rewrite lookup_insert_ne by done. apply Hsound.
  - intros self l Hsound s pres. rewrite disable_lookup, disable_host_sections.
    case_decide; [done|]. apply Hsound.
Qed.

(** No parse function was invoked twice for one section or for a section
    without raw data, and the parsing errors do not outnumber the
    invocations. *)
Definition calls_sound self : Prop :=
  called_once self ∧
  (∀ s, s ∈ parse_calls self → is_Some (dict_get s (sections (_host_sections self)))) ∧
  (length (parsing_errors self) ≤ length (parse_calls self))%nat.

Lemma calls_sound_init hs hn : calls_sound (SectionsParser_init hs hn).
Proof.
  split; [apply called_once_init|]. split; [|done]. by intros s ?%elem_of_nil.
Qed.

Lemma calls_sound_kept : kept_by_parser calls_sound.
Proof.
  split.
  - intros self s f res self' (Honce & Hraw & Hlen) Hp.
    split; [by eapply called_once_parse|].
    apply parse_Returns_inv in Hp as [[_ ->]|(_ & _ & Hhs' & _ & Hcases)]; [done|].
    rewrite Hhs'. unfold parsing_errors in *.
    destruct Hcases as [(_ & _ & -> & ->)|(raw & Hr & -> & [(? & _ & _ & ->)|(? & _ & _ & _ & ->)])].
    + done.
    + split; [|rewrite length_app; simpl; lia].
      intros s' [?| ->%list_elem_of_singleton]%elem_of_app; [auto|]. rewrite Hr. eauto.
    + split; [|rewrite !length_app; simpl; lia].
      intros s' [?| ->%list_elem_of_singleton]%elem_of_app; [auto|]. rewrite Hr. eauto.
  - intros self l (Honce & Hraw & Hlen). split; [by apply called_once_disable|].
    unfold parsing_errors. by rewrite disable_parse_calls, disable_host_sections,
      disable_parsing_errors.
Qed.

(** ** The parser over its lifetime *)

(** X1: whatever calls a parser has served since it was created, a
    [parse] that returns a parsing result returns it for a section the
    host has raw data for, and with the cache info the host has for that
    section ([None] if it has none). *)
Theorem parse_results_sound hs hn calls rs self s f pres self' :
  run_calls calls (SectionsParser_init hs hn) = Returns rs self →
  parse s f self = Returns (Some pres) self' →
  is_Some (dict_get s (sections hs)) ∧ cache_info pres = hs_cache_info hs !! s.
Proof.
  intros Hrun Hp.
  pose proof (kept_run_calls _ _ _ _ _ memo_sound_kept (memo_sound_init hs hn) Hrun) as Hs.
  pose proof (proj1 memo_sound_kept _ _ _ _ _ Hs Hp) as Hs'.
  pose proof (kept_run_calls _ _ _ _ _ (frame_of_kept _) (conj eq_refl (conj eq_refl (reflexivity _))) Hrun)
    as (Hhs & _).
  destruct (parse_frame _ _ _ _ _ _ _ Hp) as [Hhs' _].
  destruct (Hs' s pres (parse_memoizes _ _ _ _ _ _ _ Hp)) as [Hraw Hci].
  rewrite Hhs', Hhs in Hraw, Hci. done.
Qed.

(** X2: whatever calls a parser has served since it was created, every
    invocation of a parse function was for a section the host has raw data
    for, and there are at most as many parsing errors as invocations. *)
Theorem parse_functions_invoked_on_raw_data hs hn calls rs self :
  run_calls calls (SectionsParser_init hs hn) = Returns rs self →
  (∀ s, s ∈ parse_calls self → is_Some (dict_get s (sections hs))) ∧
  (length (parsing_errors self) ≤ length (parse_calls self))%nat.
Proof.
  intros Hrun.
  pose proof (kept_run_calls _ _ _ _ _ calls_sound_kept (calls_sound_init hs hn) Hrun)
    as (_ & Hraw & Hlen).
  pose proof (kept_run_calls _ _ _ _ _ (frame_of_kept _) (conj eq_refl (conj eq_refl (reflexivity _))) Hrun)
    as (Hhs & _).
  rewrite Hhs in Hraw. done.
Qed.

Lemma disable_set_memoized l self :
  disable l self = set_memoized self (_memoized_results (disable l self)).
Proof.
  revert self. induction l as [|s l IH]; intros self.
  - by destruct self.
  - simpl. by rewrite IH.
Qed.

(** X3: [disable] depends on the set of the names it is given only, not
    on their order or on repetitions; in particular disabling twice is
    disabling once. *)
Theorem disable_order_irrelevant l l' self :
  (∀ s, s ∈ l ↔ s ∈ l') → disable l self = disable l' self.
Proof.
  intros Hsame. rewrite (disable_set_memoized l), (disable_set_memoized l').
  f_equal. apply map_eq. intros s. rewrite !disable_lookup.
  destruct (decide (s ∈ l)) as [Hl|Hl].
  - by rewrite decide_True by (by apply Hsame).
  - by rewrite decide_False by (by rewrite <-Hsame).
Qed.

(** X4: a parse function that returns [None] for the raw data of a section
    is taken as the section being absent: [parse] returns absent and
    records no parsing error, and the function, invoked once, is not
    invoked by later calls for the section, which return absent. *)
Theorem parse_function_returning_none self s f raw :
  _memoized_results self !! s = None →
  dict_get s (sections (_host_sections self)) = Some raw →
  f raw = Return None →
  ∃ self',
    parse s f self = Returns None self' ∧
    parsing_errors self' = parsing_errors self ∧
    parse_calls self' = parse_calls self ++ [s] ∧
    ∀ g, parse s g self' = Returns None self'.
Proof.
  intros Hm Hraw Hf.
  pose proof (parse_returned debug_enabled create_section_crash_dump
                self s f raw None Hm Hraw Hf) as Hp.
  eexists. split; [exact Hp|].
  split; [done|]. split; [done|]. intros g. apply parse_memoized. apply lookup_insert_eq.
Qed.

(** ** The resolver over a pass *)

(** X5: the producers the resolver tries for a parsed section name are the
    registered plugins with that parsed section name, each once, in the
    order of registration; none if no plugin has it. *)
Theorem producers_in_registration_order (ps : list (@SectionPlugin Content)) P :
  default [] (_producers (ParsedSectionsResolver_init ps) !! P) =
    filter (λ p, parsed_section_name p = P) ps.
Proof. apply init_producers_lookup. Qed.

(** X6: the superseders the resolver parses before a raw section are the
    registered plugins whose [supersedes] holds the name of that section,
    each once, in the order of registration. *)
Theorem superseders_in_registration_order (ps : list (@SectionPlugin Content)) n :
  default [] (_superseders (ParsedSectionsResolver_init ps) !! n) =
    filter (λ p, n ∈ supersedes p) ps.
Proof. apply init_superseders_lookup. Qed.

(** The tables of a resolver are never written after its creation. *)
Lemma resolve_tables P r parser res r' parser' :
  resolve P (r, parser) = Returns res (r', parser') →
  section_plugins r' = section_plugins r ∧ _superseders r' = _superseders r ∧
  _producers r' = _producers r.
Proof.
  unfold resolve. destruct (_memoized_resolved r !! P) as [x|] eqn:Hm.
  - by intros [= <- <- <-].
  - destruct (try_producers _ _ _) as [found parser1|]; [|done].
    unfold resolved_setdefault. rewrite Hm. by intros [= <- <- <-].
Qed.

(** X7: what [resolve] has returned for a parsed section name it returns
    again after any further resolutions, and for whatever parser it is
    handed then: it does not look at the parser again, nor change it. *)
Theorem resolve_memoized_for_the_pass P pr res pr1 names output output' pr2 parser :
  resolve P pr = Returns res pr1 →
  resolve_names names output pr1 = Returns output' pr2 →
  resolve P (pr2.1, parser) = Returns res (pr2.1, parser).
Proof.
  intros [Hm _]%resolve_memoizes (Hkeep & _)%resolve_names_spec.
  apply resolve_memoized. by apply Hkeep.
Qed.

(** X8: with debug mode off, no exception of class [Exception] that a
    parse function raises leaves [resolve]: it returns, for every resolver,
    parser and name, when each parse function returns or raises such an
    exception and the crash report is written.  ([Called] holds nothing
    else: what [except Exception] does not catch, a [SystemExit] say, is
    not modelled.) *)
Theorem resolve_never_raises P pr :
  debug_enabled = false → ∃ res pr', resolve P pr = Returns res pr'.
Proof. apply resolve_returns. Qed.

(** What a resolver has memoized comes from a registered producer whose
    raw section the host has. *)
Definition resolved_sound (ps : list (@SectionPlugin Content)) hs r : Prop :=
  ∀ P resolved, _memoized_resolved r !! P = Some (Some resolved) →
    section resolved ∈ ps ∧ parsed_section_name (section resolved) = P ∧
    is_Some (dict_get (name (section resolved)) (sections hs)) ∧
    rr_cache_info resolved = hs_cache_info hs !! name (section resolved).

Lemma resolved_sound_resolve ps hs P r parser res r' parser' :
  _producers r = _init_producers ps → resolved_sound ps hs r →
  _host_sections parser = hs → memo_sound parser →
  resolve P (r, parser) = Returns res (r', parser') →
  resolved_sound ps hs r'.
Proof.
  intros Hprod Hr Hhs Hsound. unfold resolve.
  destruct (_memoized_resolved r !! P) as [x|] eqn:Hm; [by intros [= <- <- <-]|].
  destruct (try_producers _ _ _) as [found parser1|] eqn:Ht; [|done].
  unfold resolved_setdefault. rewrite Hm. intros [= <- <- <-].
  destruct (kept_try_producers _ _ _ _ _ _ memo_sound_kept Hsound Ht) as [Hsound1 Hfound].
  pose proof (proj1 (kept_try_producers _ _ _ _ _ _ (frame_of_kept parser)
                (conj eq_refl (conj eq_refl (reflexivity _))) Ht)) as (Hhs1 & _).
  intros Q resolved. simpl. destruct (decide (P = Q)) as [<-|Hne].
  - rewrite lookup_insert_eq. intros [= ->].
    destruct (Hfound _ eq_refl) as (Hin & pres & Hmem & _ & Hci).
    rewrite Hprod, init_producers_lookup in Hin.
    apply list_elem_of_filter in Hin as [HP Hin].
    destruct (Hsound1 _ _ Hmem) as [Hraw Hci']. rewrite Hhs1, Hhs in Hraw, Hci'.
    repeat split; try done. congruence.
  - rewrite lookup_insert_ne by done. apply Hr.
Qed.

Lemma resolved_sound_resolve_names ps hs names output pr output' pr' :
  _producers pr.1 = _init_producers ps → resolved_sound ps hs pr.1 →
  _host_sections pr.2 = hs → memo_sound pr.2 →
  resolve_names names output pr = Returns output' pr' →
  resolved_sound ps hs pr'.1.
Proof.
  revert output pr. induction names as [|Q rest IH]; intros output pr Hprod Hr Hhs Hsound Hrun.
  - simpl in Hrun. unfold ret in Hrun. by simplify_eq.
  - simpl in Hrun. unfold bind in Hrun.
    destruct (resolve Q pr) as [resQ pr1|] eqn:HQ; [|done].
    destruct pr as [r parser], pr1 as [r1 parser1]. simpl in *.
    eapply IH; [| | | |exact Hrun]; simpl.
    + destruct (resolve_tables _ _ _ _ _ _ HQ) as (_ & _ & ->). done.
    + by eapply resolved_sound_resolve.
    + pose proof (kept_resolve _ _ _ _ _ _ _ (frame_of_kept parser)
                    (conj eq_refl (conj eq_refl (reflexivity _))) HQ) as (Hhs1 & _).
      congruence.
    + by eapply kept_resolve; [apply memo_sound_kept| |].
Qed.

Lemma pass_resolved_sound (ps : list (@SectionPlugin Content)) hs hn
    names output pr' P resolved :
  resolve_names names ∅ (ParsedSectionsResolver_init ps, SectionsParser_init hs hn) =
    Returns output pr' →
  output !! P = Some resolved →
  P ∈ names ∧
  section resolved ∈ ps ∧ parsed_section_name (section resolved) = P ∧
  is_Some (dict_get (name (section resolved)) (sections hs)) ∧
  rr_cache_info resolved = hs_cache_info hs !! name (section resolved).
Proof.
  intros Hrun Hout.
  assert (Hsound : resolved_sound ps hs pr'.1).
  { eapply resolved_sound_resolve_names; [| | | |exact Hrun]; simpl.
    - done.
    - intros Q x Hx. simpl in Hx. by rewrite lookup_empty in Hx.
    - done.
    - apply memo_sound_init. }
  apply resolve_names_spec in Hrun as (_ & _ & Hspec).
  rewrite Hspec, lookup_empty in Hout. case_decide as HP; [|done].
  split; [done|]. unfold memoized_resolved in Hout.
  destruct (_memoized_resolved pr'.1 !! P) as [[x|]|] eqn:Hm; simplify_eq.
  by apply Hsound.
Qed.

(** X9: what a new resolver of the plugins [ps] hands out for a parsed
    section name [P], over a pass on a new parser of a host, is the result
    of a registered plugin with the parsed section name [P] whose raw
    section the host has raw data for, with the cache info the host has
    for that raw section. *)
Theorem resolved_from_present_producer (ps : list (@SectionPlugin Content)) hs hn
    names output pr' P resolved :
  resolve_names names ∅ (ParsedSectionsResolver_init ps, SectionsParser_init hs hn) =
    Returns output pr' →
  output !! P = Some resolved →
  P ∈ names ∧
  section resolved ∈ ps ∧ parsed_section_name (section resolved) = P ∧
  is_Some (dict_get (name (section resolved)) (sections hs)) ∧
  rr_cache_info resolved = hs_cache_info hs !! name (section resolved).
Proof. apply pass_resolved_sound. Qed.

(** A parser of a host without raw sections that has done nothing but
    memoize absent. *)
Definition idle self : Prop :=
  sections (_host_sections self) = [] ∧ parse_calls self = [] ∧
  parsing_errors self = [] ∧
  ∀ s x, _memoized_results self !! s = Some x → x = None.

Lemma idle_parse self s f :
  idle self → ∃ self', parse s f self = Returns None self' ∧ idle self'.
Proof.
  intros (Hsec & Hcalls & Herr & Hmemo).
  destruct (_memoized_results self !! s) as [x|] eqn:Hm.
  - rewrite (Hmemo _ _ Hm) in Hm. exists self. split; [by apply parse_memoized|done].
  - eexists. split; [apply parse_no_raw_data; [done|by rewrite Hsec]|].
    split; [done|]. split; [done|]. split; [done|]. intros s' x. simpl.
    destruct (decide (s = s')) as [<-|Hne].
    + rewrite lookup_insert_eq. by intros [= <-].
    + rewrite lookup_insert_ne by done. apply Hmemo.
Qed.

Lemma idle_try_producers r producers self :
  idle self → ∃ self', try_producers r producers self = Returns None self' ∧ idle self'.
Proof.
  revert self. induction producers as [|p rest IH]; intros self Hidle.
  - by exists self.
  - destruct (parse_superseders_invariant debug_enabled create_section_crash_dump idle
                (default [] (_superseders r !! name p))) with (self := self)
      as (self1 & Hs & Hidle1); [|done|].
    { intros q self0 _ H0. destruct (idle_parse self0 (name q) (parse_function q) H0)
        as (self0' & Hp & H0'). exists None, self0'. split; [done|]. split; [done|].
      by intros [??]. }
    destruct (idle_parse self1 (name p) (parse_function p) Hidle1) as (self2 & Hp & Hidle2).
    rewrite (try_producers_next _ _ _ _ _ _ _ _ Hs Hp). by apply IH.
Qed.

Lemma idle_resolve_names names output r parser :
  (∀ P x, _memoized_resolved r !! P = Some x → x = None) → idle parser →
  ∃ r' parser', resolve_names names output (r, parser) = Returns output (r', parser') ∧
                idle parser'.
Proof.
  revert r parser. induction names as [|Q rest IH]; intros r parser Hr Hidle.
  - by exists r, parser.
  - simpl. unfold bind.
    destruct (_memoized_resolved r !! Q) as [x|] eqn:Hm.
    + rewrite (resolve_memoized _ _ _ _ _ _ Hm), (Hr _ _ Hm). by apply IH.
    + destruct (idle_try_producers r (default [] (_producers r !! Q)) parser Hidle)
        as (parser1 & Ht & Hidle1).
      rewrite (resolve_fresh _ _ _ _ _ _ _ Hm Ht). apply IH; [|done].
      intros P x. simpl. destruct (decide (Q = P)) as [<-|Hne].
      * rewrite lookup_insert_eq. by intros [= <-].
      * rewrite lookup_insert_ne by done. apply Hr.
Qed.

(** X10: for a host without raw sections a pass over any names with a new
    resolver of any plugins returns, in debug mode too, with no entry in
    the mapping, no parse function invoked and no parsing error. *)
Theorem nothing_resolved_without_raw_sections (ps : list (@SectionPlugin Content))
    hs hn names :
  sections hs = [] →
  ∃ pr',
    resolve_names names ∅ (ParsedSectionsResolver_init ps, SectionsParser_init hs hn) =
      Returns ∅ pr' ∧
    parse_calls pr'.2 = [] ∧ parsing_errors pr'.2 = [].
Proof.
  intros Hsec.
  destruct (idle_resolve_names names ∅ (ParsedSectionsResolver_init ps)
              (SectionsParser_init hs hn)) as (r' & parser' & Hrun & Hidle).
  - intros P x Hx. simpl in Hx. by rewrite lookup_empty in Hx.
  - split; [done|]. split; [done|]. split; [done|]. intros s x Hx. simpl in Hx.
    by rewrite lookup_empty in Hx.
  - exists (r', parser'). split; [done|]. destruct Hidle as (_ & Hc & He & _). done.
Qed.

(** X11: over a pass on a new parser of a host, whatever the resolver and
    the names, no parse function is invoked twice for one raw section, none
    is invoked for a raw section the host lacks, and there are at most as
    many parsing errors as invocations. *)
Theorem raw_sections_parsed_once_per_pass r hs hn names output output' pr' :
  resolve_names names output (r, SectionsParser_init hs hn) = Returns output' pr' →
  NoDup (parse_calls pr'.2) ∧
  (∀ s, s ∈ parse_calls pr'.2 → is_Some (dict_get s (sections hs))) ∧
  (length (parsing_errors pr'.2) ≤ length (parse_calls pr'.2))%nat.
Proof.
  intros Hrun.
  pose proof (kept_resolve_names _ _ _ _ _ _ calls_sound_kept
                (calls_sound_init hs hn : calls_sound (r, SectionsParser_init hs hn).2) Hrun)
    as ([Hnd _] & Hraw & Hlen).
  pose proof (kept_resolve_names _ _ _ _ _ _ (frame_of_kept (SectionsParser_init hs hn))
                (conj eq_refl (conj eq_refl (reflexivity _))
                 : frame_of _ (r, SectionsParser_init hs hn).2) Hrun) as (Hhs & _).
  rewrite Hhs in Hraw. done.
Qed.

Lemma resolve_names_tables names output pr output' pr' :
  resolve_names names output pr = Returns output' pr' →
  section_plugins pr'.1 = section_plugins pr.1 ∧ _superseders pr'.1 = _superseders pr.1 ∧
  _producers pr'.1 = _producers pr.1.
Proof.
  revert output pr. induction names as [|Q rest IH]; intros output pr Hrun.
  - simpl in Hrun. unfold ret in Hrun. by simplify_eq.
  - simpl in Hrun. unfold bind in Hrun.
    destruct (resolve Q pr) as [resQ pr1|] eqn:HQ; [|done].
    apply IH in Hrun as (-> & -> & ->). destruct pr, pr1. by eapply resolve_tables.
Qed.

(** X12: a pass leaves the raw sections, the cache info and the host name
    of the parser and the plugins and tables of the resolver as they were,
    and keeps the parsing errors recorded before it, in their order, at
    the head of the list. *)
Theorem pass_keeps_raw_sections_and_tables names output pr output' pr' :
  resolve_names names output pr = Returns output' pr' →
  _host_sections pr'.2 = _host_sections pr.2 ∧ _host_name pr'.2 = _host_name pr.2 ∧
  parsing_errors pr.2 `prefix_of` parsing_errors pr'.2 ∧
  section_plugins pr'.1 = section_plugins pr.1 ∧ _superseders pr'.1 = _superseders pr.1 ∧
  _producers pr'.1 = _producers pr.1.
Proof.
  intros Hrun.
  pose proof (kept_resolve_names _ _ _ _ _ _ (frame_of_kept pr.2)
                (conj eq_refl (conj eq_refl (reflexivity _))) Hrun) as (? & ? & ?).
  pose proof (resolve_names_tables _ _ _ _ _ Hrun) as (? & ? & ?). done.
Qed.

(** ** The broker over repeated passes *)

Lemma resolve_names_memoized names output pr :
  (∀ P, P ∈ names → is_Some (_memoized_resolved pr.1 !! P)) →
  ∃ output', resolve_names names output pr = Returns output' pr.
Proof.
  revert output. induction names as [|Q rest IH]; intros output Hall.
  - by exists output.
  - destruct (Hall Q) as [x Hx]; [by left|]. destruct pr as [r parser].
    simpl. unfold bind. rewrite (resolve_memoized _ _ _ _ _ _ Hx).
    apply IH. intros P HP. apply Hall. by right.
Qed.

Lemma resolve_providers_memoized names done_ todo output :
  Forall (λ pr, ∀ P, P ∈ names → is_Some (_memoized_resolved pr.1 !! P)) todo →
  ∃ output', resolve_providers names done_ todo output = Returns output' (done_ ++ todo).
Proof.
  intros Hall. revert done_ output. induction Hall as [|pr rest Hpr Hall IH]; intros done_ output.
  - exists output. simpl. by rewrite app_nil_r.
  - destruct (resolve_names_memoized names output pr Hpr) as [output1 H1].
    simpl. rewrite H1. destruct (IH (done_ ++ [pr]) output1) as [output' H'].
    exists output'. by rewrite H', <-app_assoc.
Qed.

(** X13: when [ParsedSectionsBroker.resolve] has returned, a second call
    with the same names on the providers as the first call left them
    returns the same mapping and leaves the providers as they are; no
    parse function is invoked by it. *)
Theorem broker_resolve_again names
    (providers : list (@ParsedSectionsResolver Content * @SectionsParser Content))
    output providers' :
  ParsedSectionsBroker_resolve names providers = Returns output providers' →
  ParsedSectionsBroker_resolve names providers' = Returns output providers'.
Proof.
  unfold ParsedSectionsBroker_resolve. intros Hrun.
  apply resolve_providers_spec in Hrun as (todo' & -> & Hserved & Hout). simpl.
  assert (Hall : Forall (λ pr, ∀ P, P ∈ names → is_Some (_memoized_resolved pr.1 !! P)) todo').
  { apply Forall_forall. intros pr' [i Hi]%list_elem_of_lookup.
    destruct (Forall2_lookup_r _ _ _ _ _ Hserved Hi) as (pr0 & _ & out & out' & Hrun).
    by apply resolve_names_spec in Hrun as (_ & Hmem & _). }
  destruct (resolve_providers_memoized names [] todo' ∅ Hall) as [output2 H2].
  simpl in H2. rewrite H2. f_equal.
  apply resolve_providers_spec in H2 as (todo2 & Heq & _ & Hout2). simpl in Heq. subst todo2.
  apply map_eq. intros P. by rewrite Hout, Hout2.
Qed.

Lemma resolve_providers_no_names
    (done_ todo : list (@ParsedSectionsResolver Content * @SectionsParser Content)) output :
  resolve_providers [] done_ todo output = Returns output (done_ ++ todo).
Proof.
  revert done_. induction todo as [|pr rest IH]; intros done_; simpl.
  - by rewrite app_nil_r.
  - by rewrite IH, <-app_assoc.
Qed.

(** X14: asked for no names, [ParsedSectionsBroker.resolve] returns the
    empty mapping and leaves every provider as it is. *)
Theorem broker_resolve_no_names
    (providers : list (@ParsedSectionsResolver Content * @SectionsParser Content)) :
  ParsedSectionsBroker_resolve [] providers = Returns ∅ providers.
Proof. apply (resolve_providers_no_names [] providers ∅). Qed.

(** ** Providers *)

(** The provider of an entry of the host sections: under the host key of
    the entry, a new parser for its host sections and hostname and a new
    resolver of the plugins registered for its raw sections. *)
Definition provider_of (registry : gmap SectionName (@SectionPlugin Content))
    (entry : HostKey * HostSections)
    (provider : HostKey * (@ParsedSectionsResolver Content * @SectionsParser Content))
  : Prop :=
  provider.1 = entry.1 ∧
  provider.2.2 = SectionsParser_init entry.2 (hostname entry.1) ∧
  provider.2.1 = ParsedSectionsResolver_init (section_plugins provider.2.1) ∧
  Forall2 (λ section_name plugin, registry !! section_name = Some plugin)
          (dict_keys (sections entry.2)) (section_plugins provider.2.1).

Lemma make_providers_Return (host_sections : list (HostKey * HostSections))
    (registry : gmap SectionName (@SectionPlugin Content)) providers :
  make_providers host_sections registry = Return providers →
  Forall2 (provider_of registry) host_sections providers.
Proof.
  revert providers. induction host_sections as [|[host_key hs] rest IH]; intros providers; simpl.
  - intros [= <-]. constructor.
  - pose proof (lookup_plugins_spec registry (dict_keys (sections hs))) as Hl.
    destruct (lookup_plugins registry (dict_keys (sections hs))) as [plugins|e]; [|done].
    destruct (make_providers rest registry) as [providers0|e]; [|done].
    intros [= <-]. constructor; [|by apply IH]. done.
Qed.

(** X15: when [make_providers] returns, it has, in the order of the
    mapping, for each host key one provider: a new parser for the host
    sections and the hostname of that key, and a new resolver of the
    plugins that the registry holds under the names of the raw sections of
    that host, in their order. *)
Theorem make_providers_per_host (host_sections : list (HostKey * HostSections))
    (registry : gmap SectionName (@SectionPlugin Content)) providers :
  make_providers host_sections registry = Return providers →
  Forall2 (provider_of registry) host_sections providers.
Proof. apply make_providers_Return. Qed.

(** X16: what a provider made by [make_providers] for a host key hands
    out for a parsed section name over a pass is the result of a plugin
    that the registry holds under the name of a raw section of that host,
    and the host has raw data for the raw section the plugin parses: no
    provider resolves from the raw sections of another host. *)
Theorem providers_resolve_from_own_host (host_sections : list (HostKey * HostSections))
    (registry : gmap SectionName (@SectionPlugin Content)) providers
    host_key provider names output provider' P resolved :
  make_providers host_sections registry = Return providers →
  (host_key, provider) ∈ providers →
  resolve_names names ∅ provider = Returns output provider' →
  output !! P = Some resolved →
  ∃ hs, (host_key, hs) ∈ host_sections ∧
    (∃ section_name, section_name ∈ dict_keys (sections hs) ∧
       registry !! section_name = Some (section resolved)) ∧
    parsed_section_name (section resolved) = P ∧
    is_Some (dict_get (name (section resolved)) (sections hs)).
Proof.
  intros Hmake [i Hi]%list_elem_of_lookup Hrun Hout.
  apply make_providers_Return in Hmake.
  destruct (Forall2_lookup_r _ _ _ _ _ Hmake Hi) as ([hk hs] & Hentry & Hk & Hparser & Hres & Hreg).
  simpl in *. subst hk. destruct provider as [r parser]. simpl in *.
  rewrite Hres, Hparser in Hrun.
  destruct (pass_resolved_sound _ _ _ _ _ _ _ _ Hrun Hout) as (_ & Hin & HP & Hraw & _).
  exists hs. split; [by eapply list_elem_of_lookup_2|]. split; [|done].
  apply list_elem_of_lookup in Hin as [j Hj].
  destruct (Forall2_lookup_r _ _ _ _ _ Hreg Hj) as (section_name & Hs & Hlook).
  exists section_name. split; [by eapply list_elem_of_lookup_2|done].
Qed.

End more_properties.

(** ** Cache info and the piggyback store *)

Lemma least_unique m m' xs : least m xs → least m' xs → m = m'.
Proof. intros [Hin Hle] [Hin' Hle']. specialize (Hle _ Hin'). specialize (Hle' _ Hin). lia. Qed.

Lemma greatest_unique m m' xs : greatest m xs → greatest m' xs → m = m'.
Proof. intros [Hin Hle] [Hin' Hle']. specialize (Hle _ Hin'). specialize (Hle' _ Hin). lia. Qed.

Lemma get_cache_info_Some (cache_infos : list _CacheInfo) ats intervals :
  get_cache_info cache_infos = Some (ats, intervals) ↔
  least ats cache_infos.*1 ∧ greatest intervals cache_infos.*2.
Proof.
  destruct cache_infos as [|[a i] rest].
  - split; [done|]. intros [[[]%elem_of_nil _] _].
  - assert (Hmin : least (py_min a rest.*1) (a :: rest.*1)).
    { split; [apply py_min_elem|]. destruct (py_min_le a rest.*1) as [H1 H2].
      intros x [->|Hx]%elem_of_cons; auto. }
    assert (Hmax : greatest (py_max i rest.*2) (i :: rest.*2)).
    { split; [apply py_max_elem|]. destruct (py_max_ge i rest.*2) as [H1 H2].
      intros x [->|Hx]%elem_of_cons; auto. }
    simpl. split.
    + by intros [= <- <-].
    + intros [Hl Hg]. f_equal. f_equal; [by eapply least_unique|by eapply greatest_unique].
Qed.

(** X17: the aggregated cache info does not depend on the order of the
    cache infos. *)
Theorem get_cache_info_order_irrelevant (cache_infos cache_infos' : list _CacheInfo) :
  cache_infos ≡ₚ cache_infos' → get_cache_info cache_infos = get_cache_info cache_infos'.
Proof.
  intros Hperm. destruct (get_cache_info cache_infos) as [[ats intervals]|] eqn:H.
  - symmetry. apply get_cache_info_Some. apply get_cache_info_Some in H as [[Hin Hle] [Hin' Hle']].
    assert (H1 : cache_infos.*1 ≡ₚ cache_infos'.*1) by by apply fmap_Permutation.
    assert (H2 : cache_infos.*2 ≡ₚ cache_infos'.*2) by by apply fmap_Permutation.
    split; split.
    + by rewrite <-H1.
    + intros x Hx. apply Hle. by rewrite H1.
    + by rewrite <-H2.
    + intros x Hx. apply Hle'. by rewrite H2.
  - destruct cache_infos as [|[??] ?]; [|done].
    apply Permutation_nil_l in Hperm. by subst.
Qed.

(** X18: aggregating the cache infos of two sequences one after the other
    gives the earlier of the two aggregated timestamps with the greater of
    the two aggregated intervals, and the aggregate of the other sequence
    if one is empty. *)
Theorem get_cache_info_app (cache_infos1 cache_infos2 : list _CacheInfo) :
  get_cache_info (cache_infos1 ++ cache_infos2) =
    match get_cache_info cache_infos1, get_cache_info cache_infos2 with
    | Some (ats1, intervals1), Some (ats2, intervals2) =>
        Some (ats1 `min` ats2, intervals1 `max` intervals2)
    | Some cache_info, None => Some cache_info
    | None, aggregated => aggregated
    end.
Proof.
  destruct (get_cache_info cache_infos1) as [[a1 i1]|] eqn:H1.
  - destruct (get_cache_info cache_infos2) as [[a2 i2]|] eqn:H2.
    + apply get_cache_info_Some. rewrite !fmap_app.
      apply get_cache_info_Some in H1 as [[Hin1 Hle1] [Hin1' Hle1']].
      apply get_cache_info_Some in H2 as [[Hin2 Hle2] [Hin2' Hle2']].
      split; split.
      * apply elem_of_app. destruct (Z.min_spec a1 a2) as [[_ ->]|[_ ->]]; auto.
      * intros x [Hx|Hx]%elem_of_app; [specialize (Hle1 _ Hx)|specialize (Hle2 _ Hx)]; lia.
      * apply elem_of_app. destruct (Z.max_spec i1 i2) as [[_ ->]|[_ ->]]; auto.
      * intros x [Hx|Hx]%elem_of_app; [specialize (Hle1' _ Hx)|specialize (Hle2' _ Hx)]; lia.
    + destruct cache_infos2 as [|[??] ?]; [|done]. by rewrite app_nil_r.
  - destruct cache_infos1 as [|[??] ?]; [|done]. done.
Qed.

(** X19: storing the piggybacked sections of a mapping that is two
    mappings one after the other is storing those of the first and then
    those of the second; the calls that the store has received before are
    kept at its head. *)
Theorem store_piggybacked_sections_app
    (collected1 collected2 : list (HostKey * HostSections)) (store : list StoreCall) :
  store_piggybacked_sections (collected1 ++ collected2) store =
    store_piggybacked_sections collected2 (store_piggybacked_sections collected1 store) ∧
  store `prefix_of` store_piggybacked_sections (collected1 ++ collected2) store.
Proof.
  assert (Hprefix : ∀ collected store0,
            store0 `prefix_of` store_piggybacked_sections collected store0).
  { induction collected as [|[hk hs] rest IH]; intros store0; simpl; [done|].
    case_decide; [done|]. etrans; [|apply IH]. by apply prefix_app_r. }
  split; [|done]. revert store.
  induction collected1 as [|[hk hs] rest IH]; intros store; simpl; [done|].
  case_decide; apply IH.
Qed.

(** * Filtering the fetched host sections *)

(** Modelled from the spec: the result type of [cmk.utils.type_defs.result],
    which is not among the sources; a fetch outcome is either the raw
    section data or a fault value. *)
Inductive Result (T E : Type) :=
  | OK (ok : T)
  | Error (error : E).
Arguments OK {T E} ok.
Arguments Error {T E} error.

(** Of [SourceInfo] ([cmk.checkers]) [filter_out_errors] reads the
    hostname and the source type. *)
Module SourceInfo.
Record t := mk {
  hostname : HostName;
  source_type : SourceType
}.
End SourceInfo.

(** [d.get(k)] and [d[k] = v] on a dictionary with host keys, kept in
    insertion order: assigning to a key that is there keeps its place. *)
Fixpoint hostkey_get (k : HostKey) (d : list (HostKey * HostSections)) : option HostSections :=
  match d with
  | [] => None
  | (k', v) :: d' => if decide (k = k') then Some v else hostkey_get k d'
  end.

Fixpoint hostkey_set (k : HostKey) (v : HostSections) (d : list (HostKey * HostSections))
  : list (HostKey * HostSections) :=
  match d with
  | [] => [(k, v)]
  | (k', v') :: d' =>
      if decide (k = k') then (k', v) :: d' else (k', v') :: hostkey_set k v d'
  end.

(** [d.setdefault(k, v)], for its effect on [d]. *)
Definition hostkey_setdefault (k : HostKey) (v : HostSections)
    (d : list (HostKey * HostSections)) : list (HostKey * HostSections) :=
  match hostkey_get k d with
  | Some _ => d
  | None => hostkey_set k v d
  end.

Section filter_out_errors.

(** [HostSections()] and [HostSections.__add__] of
    [cmk.checkers.host_sections], which is not among the sources: the
    empty host sections and the merge of two host sections. *)
Variable HostSections_new : HostSections.
Variable HostSections_add : HostSections → HostSections → HostSections.

Definition host_key_of (source : SourceInfo.t) : HostKey :=
  mkHostKey (SourceInfo.hostname source) (SourceInfo.source_type source).

(** One turn of the loop of [filter_out_errors]; the calls of
    [console.vverbose] only write to the log and are left out. *)
Definition filter_out_errors_step (output : list (HostKey * HostSections))
    (item : SourceInfo.t * Result HostSections Exn)
  : Called (list (HostKey * HostSections)) :=
  let host_key := host_key_of item.1 in
  let output := hostkey_setdefault host_key HostSections_new output in
  match item.2 with
  | OK ok =>
      (* output[host_key] += host_section.ok *)
      match hostkey_get host_key output with
      | None => Raise (KeyError (hostname host_key))
      | Some current => Return (hostkey_set host_key (HostSections_add current ok) output)
      end
  | Error _ => Return output
  end.

Fixpoint filter_out_errors_from (output : list (HostKey * HostSections))
    (host_sections : list (SourceInfo.t * Result HostSections Exn))
  : Called (list (HostKey * HostSections)) :=
  match host_sections with
  | [] => Return output
  | item :: rest =>
      match filter_out_errors_step output item with
      | Return output => filter_out_errors_from output rest
      | Raise e => Raise e
      end
  end.

(** [filter_out_errors] *)
Definition filter_out_errors (host_sections : list (SourceInfo.t * Result HostSections Exn))
  : Called (list (HostKey * HostSections)) :=
  filter_out_errors_from [] host_sections.

(** The host sections that the successful sources of a host key have
    delivered, in the order of the sources. *)
Definition delivered (host_key : HostKey)
    (host_sections : list (SourceInfo.t * Result HostSections Exn)) : list HostSections :=
  omap (λ item, match item.2 with
                | OK ok => if decide (host_key_of item.1 = host_key) then Some ok else None
                | Error _ => None
                end) host_sections.

End filter_out_errors.

(** * Properties of the filter *)

Section filter_out_errors_properties.

Variable HostSections_new : HostSections.
Variable HostSections_add : HostSections → HostSections → HostSections.

Local Abbreviation filter_out_errors_step :=
  (filter_out_errors_step HostSections_new HostSections_add).
Local Abbreviation filter_out_errors_from :=
  (filter_out_errors_from HostSections_new HostSections_add).
Local Abbreviation filter_out_errors := (filter_out_errors HostSections_new HostSections_add).

Implicit Types (k host_key : HostKey) (v : HostSections).
Implicit Types (d output : list (HostKey * HostSections)).

Lemma hostkey_get_None k d : hostkey_get k d = None ↔ k ∉ d.*1.
Proof.
  induction d as [|[k' v'] d IH]; simpl.
  - split; [intros _; apply not_elem_of_nil|done].
  - case_decide as Hk.
    + split; [done|]. intros []. subst. by left.
    + rewrite IH. split.
      * intros Hn [?|?]%elem_of_cons; done.
      * intros Hn Hin. apply Hn. by right.
Qed.

Lemma hostkey_set_keys k v d : k ∈ d.*1 → (hostkey_set k v d).*1 = d.*1.
Proof.
  induction d as [|[k' v'] d IH]; simpl; [by intros ?%elem_of_nil|].
  intros Hin. case_decide as Hk; [done|]. simpl. f_equal. apply IH.
  apply elem_of_cons in Hin as [?|?]; done.
Qed.

Lemma hostkey_set_keys_new k v d : k ∉ d.*1 → (hostkey_set k v d).*1 = d.*1 ++ [k].
Proof.
  induction d as [|[k' v'] d IH]; simpl; [done|].
  intros Hin. case_decide as Hk; [destruct Hin; subst; by left|].
  simpl. f_equal. apply IH. intros ?. apply Hin. by right.
Qed.

Lemma hostkey_get_set k v d k' :
  hostkey_get k' (hostkey_set k v d) = if decide (k' = k) then Some v else hostkey_get k' d.
Proof.
  induction d as [|[k0 v0] d IH]; simpl.
  - by case_decide.
  - destruct (decide (k = k0)) as [->|Hne]; simpl.
    + destruct (decide (k' = k0)); done.
    + rewrite IH. destruct (decide (k' = k0)) as [->|?]; [|done].
      by rewrite decide_False by done.
Qed.

(** One turn of the loop returns; it adds the host key of the source at
    the end unless it is there, and merges what the source delivered. *)
Lemma filter_out_errors_step_spec output item :
  ∃ output',
    filter_out_errors_step output item = Return output' ∧
    output'.*1 = (if decide (host_key_of item.1 ∈ output.*1) then output.*1
                  else output.*1 ++ [host_key_of item.1]) ∧
    ∀ k, hostkey_get k output' =
           if decide (k = host_key_of item.1) then
             Some (foldl HostSections_add
                     (default HostSections_new (hostkey_get k output))
                     (delivered k [item]))
           else hostkey_get k output.
Proof.
  unfold filter_out_errors_step, hostkey_setdefault.
  set (hk := host_key_of item.1).
  assert (Hdel : ∀ k, k = hk → delivered k [item] =
                      match item.2 with OK ok => [ok] | Error _ => [] end).
  { intros k ->. unfold delivered. simpl. fold hk. destruct item.2; [|done].
    by rewrite decide_True. }
  destruct (hostkey_get hk output) as [current|] eqn:Hget.
  - assert (Hin : hk ∈ output.*1).
    { destruct (decide (hk ∈ output.*1)) as [|Hn]; [done|].
      apply hostkey_get_None in Hn. congruence. }
    rewrite decide_True by done. destruct item.2 as [ok|e] eqn:Hitem.
    + rewrite Hget. eexists. split; [done|]. split; [by apply hostkey_set_keys|].
      intros k. rewrite hostkey_get_set. case_decide as Hk; [|done].
      rewrite (Hdel _ Hk). subst k. by rewrite Hget.
    + eexists. split; [done|]. split; [done|]. intros k. case_decide as Hk; [|done].
      rewrite (Hdel _ Hk). subst k. by rewrite Hget.
  - assert (Hin : hk ∉ output.*1) by by apply hostkey_get_None.
    rewrite decide_False by done. destruct item.2 as [ok|e] eqn:Hitem.
    + rewrite hostkey_get_set, decide_True by done. eexists. split; [done|].
      split.
      * rewrite hostkey_set_keys; [by apply hostkey_set_keys_new|].
        rewrite hostkey_set_keys_new by done. apply elem_of_app. right. by left.
      * intros k. rewrite !hostkey_get_set. case_decide as Hk; [|done].
        rewrite (Hdel _ Hk). subst k. by rewrite Hget.
    + eexists. split; [done|]. split; [by apply hostkey_set_keys_new|].
      intros k. rewrite hostkey_get_set. case_decide as Hk; [|done].
      rewrite (Hdel _ Hk). subst k. by rewrite Hget.
Qed.

Lemma delivered_cons k item rest :
  delivered k (item :: rest) = delivered k [item] ++ delivered k rest.
Proof. unfold delivered. simpl. by destruct (match item.2 with OK _ => _ | Error _ => _ end). Qed.

Lemma delivered_other k item :
  k ≠ host_key_of item.1 → delivered k [item] = [].
Proof.
  intros Hne. unfold delivered. simpl. destruct item.2; [|done].
  by rewrite decide_False.
Qed.

Lemma filter_out_errors_from_spec output host_sections :
  NoDup output.*1 →
  ∃ output',
    filter_out_errors_from output host_sections = Return output' ∧
    NoDup output'.*1 ∧
    (∀ k, k ∈ output'.*1 ↔ k ∈ output.*1 ∨ k ∈ host_key_of <$> host_sections.*1) ∧
    ∀ k, hostkey_get k output' =
           if decide (k ∈ output.*1 ∨ k ∈ host_key_of <$> host_sections.*1) then
             Some (foldl HostSections_add
                     (default HostSections_new (hostkey_get k output))
                     (delivered k host_sections))
           else None.
Proof.
  revert output. induction host_sections as [|item rest IH]; intros output Hnd.
  - exists output. split; [done|]. split; [done|]. split.
    + intros k. split; [auto|]. intros [?|?%elem_of_nil]; done.
    + intros k. simpl. case_decide as Hk.
      * destruct Hk as [Hk|Hk%elem_of_nil]; [|done].
        destruct (hostkey_get k output) eqn:Hg; [done|]. by apply hostkey_get_None in Hg.
      * apply hostkey_get_None. intros ?. apply Hk. by left.
  - destruct (filter_out_errors_step_spec output item) as (output1 & Hstep & Hkeys1 & Hget1).
    assert (Hnd1 : NoDup output1.*1).
    { rewrite Hkeys1. case_decide as Hin; [done|].
      apply NoDup_app. split; [done|]. split; [|apply NoDup_singleton].
      intros x Hx ->%list_elem_of_singleton. done. }
    assert (Hin1 : ∀ k, k ∈ output1.*1 ↔ k ∈ output.*1 ∨ k = host_key_of item.1).
    { intros k. rewrite Hkeys1. case_decide as Hin.
      - split; [auto|]. intros [?| ->]; done.
      - rewrite elem_of_app, list_elem_of_singleton. done. }
    destruct (IH output1 Hnd1) as (output' & Hrun & Hnd' & Hkeys' & Hget').
    assert (Hunfold : filter_out_errors_from output (item :: rest) =
                      filter_out_errors_from output1 rest).
    { simpl. by rewrite Hstep. }
    exists output'. rewrite Hunfold. split; [done|]. split; [done|].
    assert (Hsame : ∀ k, k ∈ output1.*1 ∨ k ∈ host_key_of <$> rest.*1 ↔
                         k ∈ output.*1 ∨ k ∈ host_key_of <$> (item :: rest).*1).
    { intros k. rewrite Hin1. rewrite !fmap_cons, elem_of_cons. tauto. }
    split.
    + intros k. by rewrite Hkeys', Hsame.
    + intros k. rewrite Hget'. clear Hget'.
      destruct (decide (k ∈ output1.*1 ∨ k ∈ host_key_of <$> rest.*1)) as [Hk|Hk].
      * rewrite decide_True by (by apply Hsame). apply (f_equal Some).
        rewrite delivered_cons, foldl_app, Hget1.
        destruct (decide (k = host_key_of item.1)) as [Heq|Hne]; [done|].
        by rewrite delivered_other.
      * rewrite decide_False; [done|]. by rewrite <-Hsame.
Qed.

(** X20: [filter_out_errors] returns a mapping with exactly one entry for
    every host key that a source of the sequence has, whether the source
    has failed or not. *)
Theorem filter_out_errors_keys (host_sections : list (SourceInfo.t * Result HostSections Exn)) :
  ∃ output,
    filter_out_errors host_sections = Return output ∧
    NoDup output.*1 ∧
    ∀ host_key, host_key ∈ output.*1 ↔ host_key ∈ host_key_of <$> host_sections.*1.
Proof.
  destruct (filter_out_errors_from_spec [] host_sections) as (output & Hrun & Hnd & Hkeys & _).
  { constructor. }
  exists output. split; [done|]. split; [done|]. intros k. rewrite Hkeys.
  split; [intros [?%elem_of_nil|?]; done|auto].
Qed.

(** X21: the entry that [filter_out_errors] makes for a host key is the
    empty host sections with the host sections of the successful sources
    of that host key merged into it one after the other, in the order of
    the sequence; a failed source leaves it as it is. *)
Theorem filter_out_errors_values (host_sections : list (SourceInfo.t * Result HostSections Exn))
    output host_key :
  filter_out_errors host_sections = Return output →
  host_key ∈ host_key_of <$> host_sections.*1 →
  hostkey_get host_key output =
    Some (foldl HostSections_add HostSections_new (delivered host_key host_sections)).
Proof.
  intros Hrun Hin.
  destruct (filter_out_errors_from_spec [] host_sections) as (output' & Hrun' & _ & _ & Hget).
  { constructor. }
  unfold filter_out_errors in Hrun. rewrite Hrun' in Hrun. simplify_eq.
  rewrite Hget. by rewrite decide_True by (by right).
Qed.

End filter_out_errors_properties.

(** * The further properties on concrete hosts *)

Lemma conj_dep (A B : Prop) : A → (A → B) → A ∧ B.
Proof. tauto. Qed.

Definition returning_none : @ParseFunction string := λ _, Return None.

Definition registry_ab : gmap SectionName (@SectionPlugin string) :=
  {[ "a" := section_a; "b" := section_b ]}.

Definition host_key_host : HostKey := mkHostKey "host" HOST.

(** The empty host sections and a merge that appends raw sections and
    piggybacked data and lets the later cache info win. *)
Definition no_host_sections : HostSections :=
  {| sections := []; hs_cache_info := ∅; piggybacked_raw_data := [] |}.

Definition merge_host_sections (self other : HostSections) : HostSections :=
  {| sections := sections self ++ sections other;
     hs_cache_info := hs_cache_info other ∪ hs_cache_info self;
     piggybacked_raw_data := piggybacked_raw_data self ++ piggybacked_raw_data other |}.

Definition fetched : list (SourceInfo.t * Result HostSections Exn) :=
  [(SourceInfo.mk "host" HOST, OK host_a);
   (SourceInfo.mk "host" MANAGEMENT, Error (Exception "timeout"));
   (SourceInfo.mk "host" HOST, OK host_ab)].

(** X1, for a parser that has parsed "a" and then parses "b". *)
Lemma parse_results_sound_witness :
  ∃ rs self pres self',
    run_calls false crash_dump [CallParse "a" (returning "content of a")]
      (SectionsParser_init host_ab "host") = Returns rs self ∧
    parse false crash_dump "b" (returning "content of b") self = Returns (Some pres) self' ∧
    is_Some (dict_get "b" (sections host_ab)) ∧
    cache_info pres = hs_cache_info host_ab !! "b".
Proof.
  eexists _, _, _, _. apply conj_dep; [vm_compute; reflexivity|]. intros Hrun.
  apply conj_dep; [vm_compute; reflexivity|]. intros Hp.
  exact (parse_results_sound false crash_dump host_ab "host" _ _ _ "b" _ _ _ Hrun Hp).
Defined.

(** X2, for a parser that has parsed a section whose parse function
    raises, one that parses and one without raw data. *)
Lemma parse_functions_invoked_on_raw_data_witness :
  ∃ rs self,
    run_calls false crash_dump
      [CallParse "bad" raising; CallParse "good" (returning "content of good");
       CallParse "none" (returning "content")]
      (SectionsParser_init host_bad_good "host") = Returns rs self ∧
    (∀ s, s ∈ parse_calls self → is_Some (dict_get s (sections host_bad_good))) ∧
    (length (parsing_errors self) ≤ length (parse_calls self))%nat.
Proof.
  eexists _, _. apply conj_dep; [vm_compute; reflexivity|]. intros Hrun.
  exact (parse_functions_invoked_on_raw_data false crash_dump host_bad_good "host" _ _ _ Hrun).
Defined.

(** X3, for a list with a repetition and one in another order. *)
Lemma disable_order_irrelevant_witness :
  disable ["a"; "b"; "a"] (SectionsParser_init (Content := string) host_ab "host") =
  disable ["b"; "a"] (SectionsParser_init host_ab "host").
Proof.
  apply disable_order_irrelevant. intros s. rewrite !elem_of_cons. tauto.
Defined.

(** X4, for a parse function that returns [None] for the raw data of "a". *)
Lemma parse_function_returning_none_witness :
  ∃ self',
    parse false crash_dump "a" returning_none (SectionsParser_init host_ab "host")
    = Returns None self' ∧
    parsing_errors self' = parsing_errors (SectionsParser_init (Content := string) host_ab "host") ∧
    parse_calls self' = parse_calls (SectionsParser_init (Content := string) host_ab "host") ++ ["a"] ∧
    ∀ g, parse false crash_dump "a" g self' = Returns None self'.
Proof.
  apply (parse_function_returning_none false crash_dump
           (SectionsParser_init host_ab "host") "a" returning_none [["1"]]); reflexivity.
Defined.

(** X7, for "P" resolved on one host and asked for again with the parser
    of another. *)
Lemma resolve_memoized_for_the_pass_witness :
  ∃ res pr1 output' pr2,
    resolve false crash_dump "P"
      (ParsedSectionsResolver_init [section_a; section_b], SectionsParser_init host_ab "host")
    = Returns res pr1 ∧
    resolve_names false crash_dump ["Q"] ∅ pr1 = Returns output' pr2 ∧
    resolve false crash_dump "P" (pr2.1, SectionsParser_init host_a "other")
    = Returns res (pr2.1, SectionsParser_init host_a "other").
Proof.
  eexists _, _, _, _. apply conj_dep; [vm_compute; reflexivity|]. intros Hr.
  apply conj_dep; [vm_compute; reflexivity|]. intros Hrun.
  exact (resolve_memoized_for_the_pass false crash_dump "P" _ _ _ _ _ _ _
           (SectionsParser_init host_a "other") Hr Hrun).
Defined.

(** X8, for a plugin whose parse function raises. *)
Lemma resolve_never_raises_witness :
  ∃ res pr',
    resolve false crash_dump "Pbad"
      (ParsedSectionsResolver_init [section_bad; section_good],
       SectionsParser_init host_bad_good "host")
    = Returns res pr'.
Proof. apply resolve_never_raises. reflexivity. Defined.

(** X9, for the two plugins of "P" on a host with raw data for both. *)
Lemma resolved_from_present_producer_witness :
  ∃ output pr' resolved,
    resolve_names false crash_dump ["P"] ∅
      (ParsedSectionsResolver_init [section_a; section_b], SectionsParser_init host_ab "host")
    = Returns output pr' ∧
    output !! "P" = Some resolved ∧
    "P" ∈ ["P"] ∧
    section resolved ∈ [section_a; section_b] ∧
    parsed_section_name (section resolved) = "P" ∧
    is_Some (dict_get (name (section resolved)) (sections host_ab)) ∧
    rr_cache_info resolved = hs_cache_info host_ab !! name (section resolved).
Proof.
  eexists _, _, _. apply conj_dep; [vm_compute; reflexivity|]. intros Hrun.
  apply conj_dep; [vm_compute; reflexivity|]. intros Hout.
  exact (resolved_from_present_producer false crash_dump [section_a; section_b] host_ab
           "host" ["P"] _ _ "P" _ Hrun Hout).
Defined.

(** X10, for a host without raw sections and the two plugins of "P". *)
Lemma nothing_resolved_without_raw_sections_witness :
  ∃ pr',
    resolve_names true crash_dump ["P"; "Q"] ∅
      (ParsedSectionsResolver_init [section_a; section_b],
       SectionsParser_init no_host_sections "host")
    = Returns ∅ pr' ∧
    parse_calls pr'.2 = [] ∧ parsing_errors pr'.2 = [].
Proof.
  apply (nothing_resolved_without_raw_sections true crash_dump [section_a; section_b]
           no_host_sections "host" ["P"; "Q"]).
  reflexivity.
Defined.

(** X11, for a pass that asks for "Pbad" twice and for "Pgood". *)
Lemma raw_sections_parsed_once_per_pass_witness :
  ∃ output' pr',
    resolve_names false crash_dump ["Pbad"; "Pgood"; "Pbad"] ∅
      (ParsedSectionsResolver_init [section_bad; section_good],
       SectionsParser_init host_bad_good "host")
    = Returns output' pr' ∧
    NoDup (parse_calls pr'.2) ∧
    (∀ s, s ∈ parse_calls pr'.2 → is_Some (dict_get s (sections host_bad_good))) ∧
    (length (parsing_errors pr'.2) ≤ length (parse_calls pr'.2))%nat.
Proof.
  eexists _, _. apply conj_dep; [vm_compute; reflexivity|]. intros Hrun.
  exact (raw_sections_parsed_once_per_pass false crash_dump _ host_bad_good "host"
           _ _ _ _ Hrun).
Defined.

(** X12, for the same pass. *)
Lemma pass_keeps_raw_sections_and_tables_witness :
  ∃ output' pr',
    let pr := (ParsedSectionsResolver_init [section_bad; section_good],
               SectionsParser_init host_bad_good "host") in
    resolve_names false crash_dump ["Pbad"; "Pgood"] ∅ pr = Returns output' pr' ∧
    _host_sections pr'.2 = _host_sections pr.2 ∧ _host_name pr'.2 = _host_name pr.2 ∧
    parsing_errors pr.2 `prefix_of` parsing_errors pr'.2 ∧
    section_plugins pr'.1 = section_plugins pr.1 ∧ _superseders pr'.1 = _superseders pr.1 ∧
    _producers pr'.1 = _producers pr.1.
Proof.
  eexists _, _. apply conj_dep; [vm_compute; reflexivity|]. intros Hrun.
  exact (pass_keeps_raw_sections_and_tables false crash_dump _ _ _ _ _ Hrun).
Defined.

(** X13, for the two nodes asked for "P". *)
Lemma broker_resolve_again_witness :
  ∃ output providers',
    ParsedSectionsBroker_resolve false crash_dump ["P"] two_nodes = Returns output providers' ∧
    ParsedSectionsBroker_resolve false crash_dump ["P"] providers' = Returns output providers'.
Proof.
  eexists _, _. apply conj_dep; [vm_compute; reflexivity|]. intros Hrun.
  exact (broker_resolve_again false crash_dump ["P"] two_nodes _ _ Hrun).
Defined.

(** X15, for one host with raw data for "a" and "b". *)
Lemma make_providers_per_host_witness :
  ∃ providers,
    make_providers [(host_key_host, host_ab)] registry_ab = Return providers ∧
    Forall2 (provider_of registry_ab) [(host_key_host, host_ab)] providers.
Proof.
  eexists. apply conj_dep; [vm_compute; reflexivity|]. intros Hmake.
  exact (make_providers_per_host _ _ _ Hmake).
Defined.

(** X16, for the provider of that host asked for "P". *)
Lemma providers_resolve_from_own_host_witness :
  ∃ providers provider output provider' resolved,
    make_providers [(host_key_host, host_ab)] registry_ab = Return providers ∧
    (host_key_host, provider) ∈ providers ∧
    resolve_names false crash_dump ["P"] ∅ provider = Returns output provider' ∧
    output !! "P" = Some resolved ∧
    ∃ hs, (host_key_host, hs) ∈ [(host_key_host, host_ab)] ∧
      (∃ section_name, section_name ∈ dict_keys (sections hs) ∧
         registry_ab !! section_name = Some (section resolved)) ∧
      parsed_section_name (section resolved) = "P" ∧
      is_Some (dict_get (name (section resolved)) (sections hs)).
Proof.
  eexists _, _, _, _, _. apply conj_dep; [vm_compute; reflexivity|]. intros Hmake.
  apply conj_dep; [by left|]. intros Hin.
  apply conj_dep; [vm_compute; reflexivity|]. intros Hrun.
  apply conj_dep; [vm_compute; reflexivity|]. intros Hout.
  exact (providers_resolve_from_own_host false crash_dump _ registry_ab _ _ _ _ _ _ "P" _
           Hmake Hin Hrun Hout).
Defined.

(** X17, for the two cache infos of the example in either order. *)
Lemma get_cache_info_order_irrelevant_witness :
  get_cache_info [(100, 60); (80, 90)] = get_cache_info [(80, 90); (100, 60)].
Proof. apply get_cache_info_order_irrelevant. apply Permutation_swap. Defined.

(** X21, for a host key with two successful sources, beside a failed
    source of the management board of the host. *)
Lemma filter_out_errors_values_witness :
  ∃ output,
    filter_out_errors no_host_sections merge_host_sections fetched = Return output ∧
    host_key_host ∈ host_key_of <$> fetched.*1 ∧
    hostkey_get host_key_host output =
      Some (foldl merge_host_sections no_host_sections (delivered host_key_host fetched)).
Proof.
  eexists. apply conj_dep; [vm_compute; reflexivity|]. intros Hrun.
  apply conj_dep; [by left|]. intros Hin.
  exact (filter_out_errors_values no_host_sections merge_host_sections fetched _ _ Hrun Hin).
Defined.
